(** * Preva: the scroll-synchronised feature showcase

    A shallow embedding of [src/components/feature-showcase.tsx] and the
    properties its specification states about the scroll/index mapping.

    Conventions of the embedding.
    - A JavaScript [number] that holds an index ([active], [total], the
      argument of [scrollToIndex]) is a [Z].  The lengths the DOM reports
      ([offsetTop], [offsetHeight], [innerHeight]) are WebIDL [long]s, and the
      cached metrics computed from them are whole numbers of pixels no larger
      than 2^33: on these the [number] arithmetic of the source is exact and
      is written on [Z].
    - A [number] that holds a scroll offset or a ratio ([window.scrollY],
      [progress], [t], [target]) is an IEEE 754 binary64 value, written as
      the rational it denotes.  Subtraction, division, multiplication and
      addition on them are those of module [Double]: the exact result rounded
      to the nearest binary64 value, ties to even.  Comparisons and
      [Math.round] are exact.
    - [React.useState]/[useRef] cells and the effect-local [ticking] flag are
      the fields of the record [Showcase]; the handlers are written in a
      small state-and-log monad whose log records, in order, the calls that
      leave the component ([setActive], [window.scrollTo],
      [window.requestAnimationFrame]).
    - The DOM the handlers read ([sectionRef.current], [window]) is the
      record [Dom]. *)

From Stdlib Require Import ZArith QArith Qround Qabs Qpower Qreduction Lqa Lia.
From Stdlib Require Import List Bool String.
From Stdlib Require PrimFloat FloatOps SpecFloat.
Import ListNotations.

Local Open Scope Z_scope.

(** ** IEEE 754 binary64 arithmetic on finite values *)

Module Double.

Definition pow2 (e : Z) : Q := (2 ^ e)%Q.

(** The nearest integer, ties to the even one. *)
Definition rhe (q : Q) : Z :=
  let c := Qfloor (q + (1 # 2)) in
  if Qeq_bool (q + (1 # 2)) (inject_Z c) && Z.odd c then c - 1 else c.

(** The exponent [e] with [2^(e-1) <= |x| < 2^e], for [x] other than 0. *)
Definition mag (x : Q) : Z :=
  let k := Z.log2 (Z.abs (Qnum x)) - Z.log2 (Zpos (Qden x)) in
  if Qle_bool (pow2 k) (Qabs x) then k + 1 else k.

(** The exponent of the last of the 53 bits of the significand; subnormal
    numbers share the exponent -1074. *)
Definition ulp_exp (x : Q) : Z := Z.max (mag x - 53) (-1074).

Definition rpos (x : Q) : Q :=
  (inject_Z (rhe (x / pow2 (ulp_exp x))) * pow2 (ulp_exp x))%Q.

(** Round to nearest, ties to even. *)
Definition rnd (x : Q) : Q :=
  Qred (match (x ?= 0)%Q with
        | Eq => 0
        | Gt => rpos x
        | Lt => - rpos (- x)
        end)%Q.

Definition add (x y : Q) : Q := rnd (x + y).
Definition sub (x y : Q) : Q := rnd (x - y).
Definition mul (x y : Q) : Q := rnd (x * y).
Definition div (x y : Q) : Q := rnd (x / y).

(** The relative and the absolute part of the rounding error. *)
Definition eps : Q := pow2 (-53).
Definition eta : Q := pow2 (-1075).

(** The rational a hardware float denotes, to compare the operations above
    with the hardware's. *)
Definition of_float (f : PrimFloat.float) : option Q :=
  match FloatOps.Prim2SF f with
  | SpecFloat.S754_zero _ => Some 0%Q
  | SpecFloat.S754_finite s m e =>
      Some (Qred ((if s then - (1) else 1) * inject_Z (Zpos m) * pow2 e))%Q
  | _ => None
  end.

End Double.

(** ** JavaScript values *)

Module JS.

(** [Math.round]: the nearest integer, ties towards +infinity. *)
Definition Math_round (x : Q) : Z := Qfloor (x + (1 # 2))%Q.

(** [Math.max] and [Math.min] on integral numbers. *)
Definition Math_max (a b : Z) : Z := Z.max a b.
Definition Math_min (a b : Z) : Z := Z.min a b.

(** Truthiness of a number: everything but zero. *)
Definition truthy (x : Q) : bool := negb (Qeq_bool x 0%Q).

(** [a || b] on numbers. *)
Definition or_else (a b : Q) : Q := if truthy a then a else b.

(** [a < b], as the negation of [b <= a] (no NaN among finite values). *)
Definition Qlt_bool (a b : Q) : bool := negb (Qle_bool b a).

(** [xs[i]]: [undefined] (here [None]) off the ends. *)
Definition index {A : Type} (xs : list A) (i : Z) : option A :=
  if i <? 0 then None else nth_error xs (Z.to_nat i).

Definition length {A : Type} (xs : list A) : Z := Z.of_nat (List.length xs).

(** A WebIDL [long]. *)
Definition is_long (z : Z) : bool := (-2147483648 <=? z) && (z <=? 2147483647).

Record long : Type := Long { long_val : Z; long_ok : is_long long_val = true }.

(** A whole number of pixels as the metrics hold them: sums and differences
    of a few [long]s, at most 2^33 in absolute value. *)
Definition is_px (z : Z) : bool := (-8589934592 <=? z) && (z <=? 8589934592).

Record px : Type := Px { px_val : Z; px_ok : is_px px_val = true }.

(** The pixel number [z]; the second branch is never taken on the sums of
    [long]s the component forms. *)
Definition px_of (z : Z) : px :=
  match is_px z as b return is_px z = b -> px with
  | true => fun H => Px z H
  | false => fun _ => Px 0 eq_refl
  end eq_refl.

(** An array has at most 2^32 - 1 elements. *)
Definition is_array {A : Type} (xs : list A) : bool := length xs <=? 4294967295.

Record array (A : Type) : Type :=
  Array { items : list A; items_ok : is_array items = true }.

Arguments Array {A} items items_ok.
Arguments items {A} a.
Arguments items_ok {A} a.

End JS.

Coercion inject_Z : Z >-> Q.
Coercion JS.long_val : JS.long >-> Z.
Coercion JS.px_val : JS.px >-> Z.
Coercion JS.items : JS.array >-> list.

Notation "'long:' z" := (JS.Long z eq_refl) (at level 8, z at level 8, only parsing).
Notation "'array:' xs" := (JS.Array xs eq_refl) (at level 8, xs at level 8, only parsing).

(** ** Data model *)

Record Feature : Type := mkFeature {
  id    : Z;
  title : string;
  body  : string;
  image : string
}.

Definition FEATURES : JS.array Feature :=
  array: [ mkFeature 1 "Smart Inbox"
      "Automatically prioritizes important conversations so you focus on what matters first."
      "/smart-inbox-screen.png";
    mkFeature 2 "One‑Tap Actions"
      "Archive, snooze, or delegate messages with a single tap to keep your inbox clean."
      "/one-tap-actions-screen.png";
    mkFeature 3 "AI Summaries"
      "Get concise summaries of long threads so you can catch up in seconds, not minutes."
      "/ai-summaries-screen.png";
    mkFeature 4 "Schedule Send"
      "Compose now and send later across time zones, so every message lands at the right time."
      "/schedule-send-screen.png";
    mkFeature 5 "Smart Templates"
      "Personalized, reusable snippets that adapt tone and context automatically."
      "/smart-templates-screen.png" ].

(** [metricsRef.current] *)
Record Metrics : Type := mkMetrics {
  startY   : JS.px;
  endY     : JS.px;
  height   : JS.px;
  viewport : JS.px
}.

(** The component's own cells: the [active] state, the metrics cache and the
    [ticking] flag of the scroll effect. *)
Record Showcase : Type := mkShowcase {
  active     : Z;
  metricsRef : Metrics;
  ticking    : bool
}.

(** What the handlers read from the page. *)
Record Element : Type := mkElement {
  offsetTop    : JS.long;
  offsetHeight : JS.long
}.

(** [scrollY] is a binary64 value: scroll offsets can be fractional. *)
Record Window : Type := mkWindow {
  scrollY     : Q;
  innerHeight : JS.long
}.

(** [window.pageYOffset] is an alias of [window.scrollY]. *)
Definition pageYOffset (w : Window) : Q := scrollY w.

Record Dom : Type := mkDom {
  sectionRef : option Element;   (* [sectionRef.current], [None] for null *)
  window     : Window
}.

(** Calls that leave the component, in the order they are made. *)
Inductive Behavior : Type := Smooth | Instant.

Inductive Call : Type :=
| SetActive (i : Z)
| ScrollTo (top : Q) (behavior : Behavior)
| RequestAnimationFrame.

(** ** The handler monad: state [Showcase], log [list Call] *)

Definition M (A : Type) : Type := Showcase -> A * Showcase * list Call.

Definition ret {A : Type} (a : A) : M A := fun s => (a, s, []).

Definition bind {A B : Type} (m : M A) (k : A -> M B) : M B :=
  fun s =>
    let '(a, s1, c1) := m s in
    let '(b, s2, c2) := k a s1 in
    (b, s2, c1 ++ c2).

Declare Scope handler_scope.
Delimit Scope handler_scope with handler.
Notation "x <- m ;; k" := (bind m (fun x => k))
  (at level 61, m at next level, right associativity) : handler_scope.
Notation "m ;; k" := (bind m (fun _ => k))
  (at level 61, right associativity) : handler_scope.
Local Open Scope handler_scope.

Definition result {A : Type} (r : A * Showcase * list Call) : A := fst (fst r).
Definition state {A : Type} (r : A * Showcase * list Call) : Showcase := snd (fst r).
Definition calls {A : Type} (r : A * Showcase * list Call) : list Call := snd r.

(** [setActive(i)] *)
Definition setActive (i : Z) : M unit :=
  fun s => (tt, mkShowcase i (metricsRef s) (ticking s), [SetActive i]).

(** [metricsRef.current] read and written *)
Definition getMetrics : M Metrics := fun s => (metricsRef s, s, []).

Definition putMetrics (m : Metrics) : M unit :=
  fun s => (tt, mkShowcase (active s) m (ticking s), []).

Definition getTicking : M bool := fun s => (ticking s, s, []).

Definition putTicking (b : bool) : M unit :=
  fun s => (tt, mkShowcase (active s) (metricsRef s) b, []).

(** [window.scrollTo({ top, behavior: "smooth" })] *)
Definition window_scrollTo (top : Q) (b : Behavior) : M unit :=
  fun s => (tt, s, [ScrollTo top b]).

Definition window_requestAnimationFrame : M unit :=
  fun s => (tt, s, [RequestAnimationFrame]).

(** ** The component *)

Section FeatureShowcase.

Variable features : JS.array Feature.

(** [const total = features.length] *)
Definition total : Z := JS.length features.

(** [computeMetrics]: no-op while the section is not mounted.  The source
    also reads [el.getBoundingClientRect()] and the scroll offset into
    [rect] and [scrollTop], which it does not use. *)
Definition computeMetrics (dom : Dom) : M unit :=
  match sectionRef dom with
  | None => ret tt
  | Some el =>
      let startY := JS.px_of (offsetTop el) in
      let viewport := JS.px_of (innerHeight (window dom)) in
      let height := JS.px_of (offsetHeight el) in
      let endY := JS.px_of (startY + height - viewport) in
      putMetrics (mkMetrics startY endY height viewport)
  end.

(** [scrollToIndex(nextIndex)], the specification's [navigateTo]. *)
Definition scrollToIndex (nextIndex : Z) : M unit :=
  let i := JS.Math_max 0 (JS.Math_min (total - 1) nextIndex) in
  setActive i ;;
  m <- getMetrics ;;
  if Qle_bool (endY m) (startY m) then ret tt
  else
    let t := if 1 <? total then Double.div (inject_Z i) (inject_Z (total - 1)) else 0%Q in
    let target := Double.add (startY m) (Double.mul t (Double.sub (endY m) (startY m))) in
    window_scrollTo target Smooth.

(** The offset the scroll handler works with:
    [window.scrollY || window.pageYOffset]. *)
Definition currentY (w : Window) : Q := JS.or_else (scrollY w) (pageYOffset w).

(** The predicate guarding the auto-advance:
    [y >= startY && y <= endY && endY > startY]. *)
Definition inStickyRange (m : Metrics) (y : Q) : bool :=
  Qle_bool (startY m) y && Qle_bool y (endY m) && JS.Qlt_bool (startY m) (endY m).

(** The callback [onScroll] hands to [requestAnimationFrame].  [seen] is the
    value of [active] captured by the closure, that of the render that
    registered the handler. *)
Definition onScrollFrame (seen : Z) (dom : Dom) : M unit :=
  m <- getMetrics ;;
  let y := currentY (window dom) in
  (if inStickyRange m y then
     let progress :=
       Double.div (Double.sub y (startY m)) (Double.sub (endY m) (startY m)) in
     let next := JS.Math_round (Double.mul progress (inject_Z (total - 1))) in
     if negb (next =? seen) then setActive next else ret tt
   else ret tt) ;;
  putTicking false.

(** [onScroll]: returns whether a frame callback was requested. *)
Definition onScroll (dom : Dom) : M bool :=
  match sectionRef dom with
  | None => ret false
  | Some _ =>
      tk <- getTicking ;;
      if tk then ret false
      else
        putTicking true ;;
        window_requestAnimationFrame ;;
        ret true
  end.

(** [onResize] *)
Definition onResize (dom : Dom) : M bool :=
  computeMetrics dom ;;
  onScroll dom.

(** A scroll event handled to completion: [onScroll] and then, at the next
    animation frame, the callback it requested (with the same page). *)
Definition scrollEvent (seen : Z) (dom : Dom) : M unit :=
  requested <- onScroll dom ;;
  if requested then onScrollFrame seen dom else ret tt.

(** [onPrev], [onNext]: [active] is the value the render captured. *)
Definition onPrev (seen : Z) : M unit := scrollToIndex (seen - 1).
Definition onNext (seen : Z) : M unit := scrollToIndex (seen + 1).

(** The part of the rendered tree that depends on the state. *)
Record View : Type := mkView {
  heightVh    : Z;                     (* style height, in vh *)
  label       : Z;                     (* the X of "Feature No.X -" *)
  heading     : string;                (* current.title *)
  description : string;                (* current.body *)
  entries     : list (Z * string * bool) (* id, title, isActive *)
}.

(** [style={{ height: `${Math.max(1, total) * 100}vh` }}] *)
Definition sectionHeightVh : Z := JS.Math_max 1 total * 100.

Fixpoint renderEntries (fs : list Feature) (i : Z) (act : Z)
  : list (Z * string * bool) :=
  match fs with
  | [] => []
  | f :: rest => (id f, title f, i =? act) :: renderEntries rest (i + 1) act
  end.

(** Rendering with [active = act].  [current = features[active]] is
    [undefined] off the list, and reading [current.title] then throws:
    [None]. *)
Definition render (act : Z) : option View :=
  match JS.index features act with
  | None => None
  | Some current =>
      Some (mkView sectionHeightVh (act + 1) (title current) (body current)
              (renderEntries features 0 act))
  end.

End FeatureShowcase.

(** The state the first render starts from:
    [useState(0)], [useRef({startY: 0, endY: 0, height: 0, viewport: 0})],
    [let ticking = false]. *)
Definition zeroPx : JS.px := JS.Px 0 eq_refl.

Definition initial : Showcase :=
  mkShowcase 0 (mkMetrics zeroPx zeroPx zeroPx zeroPx) false.

(** ** Specification-side vocabulary *)

(** [clamp x lo hi], as the specification uses it for [navigateTo]. *)
Definition clamp (x lo hi : Z) : Z := Z.max lo (Z.min x hi).

(** An index into the feature list. *)
Definition validIndex (features : JS.array Feature) (i : Z) : Prop :=
  0 <= i <= total features - 1.

(** The range of offsets over which the section stays pinned is not empty. *)
Definition nonDegenerate (m : Metrics) : Prop :=
  (inject_Z (startY m) < inject_Z (endY m))%Q.

(** The specification's inverse of the progress formula:
    [sectionStart + (index / (total-1)) * (sectionEnd - sectionStart)],
    the quotient being 0 when [total = 1]. *)
Definition stepOffset (features : JS.array Feature) (m : Metrics) (i : Z) : Q :=
  (inject_Z (startY m)
   + (if total features =? 1 then 0 else inject_Z i / inject_Z (total features - 1))
     * (inject_Z (endY m) - inject_Z (startY m)))%Q.

(** What a call changes: [setActive] with another index, a scroll to another
    offset than the page is at. *)
Definition effective (s : Showcase) (w : Window) (c : Call) : Prop :=
  match c with
  | SetActive i => i <> active s
  | ScrollTo top _ => ~ (top == scrollY w)%Q
  | RequestAnimationFrame => True
  end.

(** A handler run that changes nothing: the component's cells are what they
    were and none of its calls has an effect. *)
Definition noop {A : Type} (m : M A) (s : Showcase) (w : Window) : Prop :=
  state (m s) = s /\ Forall (fun c => ~ effective s w c) (calls (m s)).

(** ** Closed forms of what the handlers compute *)

(** The offset [scrollToIndex] aims at, as the code computes it. *)
Definition target (features : JS.array Feature) (m : Metrics) (n : Z) : Q :=
  Double.add (startY m)
    (Double.mul
       (if 1 <? total features
        then Double.div (inject_Z (clamp n 0 (total features - 1)))
               (inject_Z (total features - 1))
        else 0%Q)
       (Double.sub (endY m) (startY m))).

(** The index the frame callback computes inside the sticky range. *)
Definition nextIndex (features : JS.array Feature) (m : Metrics) (y : Q) : Z :=
  JS.Math_round
    (Double.mul
       (Double.div (Double.sub y (startY m)) (Double.sub (endY m) (startY m)))
       (inject_Z (total features - 1))).

(** The same index with every operation exact: what the specification's
    formula [round(progress * (total - 1))] denotes. *)
Definition exactIndex (features : JS.array Feature) (m : Metrics) (y : Q) : Z :=
  JS.Math_round ((y - inject_Z (startY m)) / (inject_Z (endY m) - inject_Z (startY m))
                 * inject_Z (total features - 1))%Q.

(** ** The mounted component as a transition system

    [World] adds to the component's cells what React and the browser hold for
    it: the page, the value of [active] the handlers of the last commit
    closed over ([rendered]), the instance of the scroll effect each queued
    animation-frame callback belongs to, and the calls issued so far. *)

Record World : Type := mkWorld {
  dom      : Dom;
  comp     : Showcase;
  rendered : Z;                (* [active] as the last commit saw it *)
  gen      : nat;              (* the running instance of the scroll effect *)
  frames   : list (nat * Z);   (* queued callbacks: instance, captured [active] *)
  issued   : list Call
}.

Inductive Event : Type :=
| Scroll (y : Q)                  (* the page is at [y]; "scroll" fires *)
| Resize (h : JS.long) (el : Element)   (* new viewport and layout; "resize" fires *)
| AnimationFrame                  (* the browser runs the oldest queued callback *)
| Commit                          (* React commits a changed [active] *)
| ClickItem (i : Z)               (* [onClick={() => scrollToIndex(i)}] *)
| ClickPrev
| ClickNext.

Section Transitions.

Variable features : JS.array Feature.

(** Run a handler on the component's cells and keep its calls. *)
Definition perform {A : Type} (w : World) (m : M A) : A * World :=
  let '(a, s, c) := m (comp w) in
  (a, mkWorld (dom w) s (rendered w) (gen w) (frames w) (issued w ++ c)).

Definition withDom (w : World) (d : Dom) : World :=
  mkWorld d (comp w) (rendered w) (gen w) (frames w) (issued w).

(** A requested frame callback joins the queue with what it closed over. *)
Definition enqueue (rw : bool * World) : World :=
  let (requested, w) := rw in
  if requested
  then mkWorld (dom w) (comp w) (rendered w) (gen w)
         (frames w ++ [(gen w, rendered w)]) (issued w)
  else w.

(** The body of the scroll effect: a fresh [ticking], [computeMetrics()],
    the listeners, the initial [onScroll()]. *)
Definition effect (w : World) : World :=
  let fresh := mkShowcase (active (comp w)) (metricsRef (comp w)) false in
  let w1 := mkWorld (dom w) fresh (active (comp w)) (S (gen w))
              (frames w) (issued w) in
  enqueue (perform w1 (computeMetrics (dom w1) ;; onScroll (dom w1))).

(** A queued callback of an older effect instance writes the [ticking] of
    that instance, not the current one. *)
Definition runFrame (w : World) : World :=
  match frames w with
  | [] => w
  | (g, seen) :: rest =>
      let w1 := mkWorld (dom w) (comp w) (rendered w) (gen w) rest (issued w) in
      let w2 := snd (perform w1 (onScrollFrame features seen (dom w1))) in
      if Nat.eqb g (gen w) then w2
      else mkWorld (dom w2)
             (mkShowcase (active (comp w2)) (metricsRef (comp w2))
                (ticking (comp w)))
             (rendered w2) (gen w2) (frames w2) (issued w2)
  end.

Definition step (w : World) (e : Event) : World :=
  match e with
  | Scroll y =>
      let d := mkDom (sectionRef (dom w))
                 (mkWindow y (innerHeight (window (dom w)))) in
      enqueue (perform (withDom w d) (onScroll d))
  | Resize h el =>
      let d := mkDom (option_map (fun _ => el) (sectionRef (dom w)))
                 (mkWindow (scrollY (window (dom w))) h) in
      enqueue (perform (withDom w d) (onResize d))
  | AnimationFrame => runFrame w
  | Commit =>
      if active (comp w) =? rendered w then w else effect w
  | ClickItem i => snd (perform w (scrollToIndex features i))
  | ClickPrev => snd (perform w (onPrev features (rendered w)))
  | ClickNext => snd (perform w (onNext features (rendered w)))
  end.

Definition run (w : World) (es : list Event) : World := fold_left step es w.

(** The component after its first commit on page [d]. *)
Definition mount (d : Dom) : World :=
  effect (mkWorld d initial 0 0 [] []).

End Transitions.

(** ** Pages to run the component on *)

(** A page with the default five features: an 800px viewport, the section
    (five viewports tall) at the top of the document. *)
Definition section5 : Element := mkElement long:0 long:4000.

Definition page5 (y : Q) : Dom :=
  mkDom (Some section5) (mkWindow y long:800).

Definition measured5 : Showcase :=
  state (computeMetrics (page5 0) initial).

(** The committed default page at its top, the frame of the mount done. *)
Definition settled5 : World :=
  step FEATURES (mount (page5 0)) AnimationFrame.

(** A single feature on a phone: the section is 100vh = 800px tall while the
    visible viewport, toolbar shown, is 744px; the page is scrolled to 30. *)
Definition ONE : JS.array Feature := array: (firstn 1 FEATURES).

Definition section1 : Element := mkElement long:0 long:800.

Definition page1 (y : Q) : Dom :=
  mkDom (Some section1) (mkWindow y long:744).

Definition measured1 : Showcase :=
  state (computeMetrics (page1 30) initial).

(** Twelve features in an 800px viewport: the sticky range is 0..8800. *)
Definition TWELVE : JS.array Feature :=
  array: (FEATURES ++ FEATURES ++ firstn 2 FEATURES).

Definition section12 : Element := mkElement long:0 long:9600.

Definition page12 (y : Q) : Dom :=
  mkDom (Some section12) (mkWindow y long:800).

Definition measured12 : Showcase :=
  state (computeMetrics (page12 0) initial).

(** Four features over a sticky range of 0..100. *)
Definition FOUR : JS.array Feature := array: (firstn 4 FEATURES).

Definition section4 : Element := mkElement long:0 long:200.

Definition page4 (y : Q) : Dom :=
  mkDom (Some section4) (mkWindow y long:100).

Definition measured4 : Showcase :=
  state (computeMetrics (page4 0) initial).

(** The empty list. *)
Definition EMPTY : JS.array Feature := array: (@nil Feature).

(** A very long list, the first feature 8388609 times, in a section one
    pixel taller than the viewport far down a very tall page: the sticky
    range is 2147483646..2147483647. *)
Definition MANY : JS.array Feature :=
  JS.Array
    (repeat (nth 0 FEATURES (mkFeature 0 EmptyString EmptyString EmptyString))
       (Z.to_nat 8388609))
    ltac:(unfold JS.is_array, JS.length;
          rewrite repeat_length, Z2Nat.id by lia; reflexivity).

Definition sectionFar : Element := mkElement long:2147483646 long:801.

Definition pageFar (y : Q) : Dom :=
  mkDom (Some sectionFar) (mkWindow y long:800).

Definition measuredFar : Showcase :=
  state (computeMetrics (pageFar 0) initial).

(** ** Further vocabulary for the handlers and the transition system *)

(** What [computeMetrics] stores for a mounted section: [offsetTop],
    [offsetTop + offsetHeight - innerHeight], [offsetHeight], [innerHeight]. *)
Definition measureSection (el : Element) (w : Window) : Metrics :=
  mkMetrics (JS.px_of (offsetTop el))
    (JS.px_of (JS.px_of (offsetTop el) + JS.px_of (offsetHeight el)
               - JS.px_of (innerHeight w)))
    (JS.px_of (offsetHeight el)) (JS.px_of (innerHeight w)).

(** A resize event handled to completion: [onResize] and then the frame
    callback its [onScroll] requested. *)
Definition resizeEvent (features : JS.array Feature) (seen : Z) (dom : Dom) : M unit :=
  requested <- onResize dom ;;
  if requested then onScrollFrame features seen dom else ret tt.

(** Whether [sectionRef.current] is set. *)
Definition isMounted (d : Dom) : bool :=
  match sectionRef d with Some _ => true | None => false end.

(** A burst of scroll events, one page after the other, with no animation
    frame in between. *)
Fixpoint scrollBurst (ds : list Dom) : M unit :=
  match ds with
  | [] => ret tt
  | d :: rest => onScroll d ;; scrollBurst rest
  end.

(** The requests for an animation frame among some calls. *)
Definition frameRequests (cs : list Call) : nat :=
  List.length (filter (fun c => match c with RequestAnimationFrame => true | _ => false end) cs).

(** The scroll requests among some calls. *)
Definition scrollRequests (cs : list Call) : list Q :=
  flat_map (fun c => match c with ScrollTo top _ => [top] | _ => [] end) cs.

(** The queued frame callbacks of effect instance [g]. *)
Definition pendingOf (g : nat) (fs : list (nat * Z)) : nat :=
  List.length (filter (fun f => Nat.eqb (fst f) g) fs).

(** The entries of a rendered list that are marked active. *)
Definition activeEntries (es : list (Z * string * bool)) : list (Z * string * bool) :=
  filter (fun e => snd e) es.

(** The frame callbacks are throttled: no queued callback is of a later
    effect instance than the running one, and the running instance has one
    callback queued when its [ticking] is set and none otherwise. *)
Definition throttled (w : World) : Prop :=
  Forall (fun f => (fst f <= gen w)%nat) (frames w)
  /\ pendingOf (gen w) (frames w) = (if ticking (comp w) then 1 else 0)%nat.

(** ** Vocabulary for the rounding analysis *)

(** The value whose rounding is the index, with the exact range length. *)
Definition scaled (features : JS.array Feature) (m : Metrics) (y : Q) : Q :=
  Double.mul (Double.div (Double.sub y (startY m)) (inject_Z (endY m - startY m)))
    (inject_Z (total features - 1)).

(** The fraction of the range [scrollToIndex] aims at. *)
Definition fraction (features : JS.array Feature) (n : Z) : Q :=
  if 1 <? total features
  then Double.div (inject_Z (clamp n 0 (total features - 1)))
         (inject_Z (total features - 1))
  else 0%Q.

(** The room left for the rounding of the index value: 2^-19. *)
Definition slack : Q := 1 # 524288.

(** The largest distance between the issued target and the exact offset of
    the step. *)
Definition targetError (m : Metrics) : Q :=
  (Double.eps * (inject_Z (Z.abs (startY m)) + 3 * inject_Z (endY m - startY m))
   + Double.eta * (2 + inject_Z (endY m - startY m)))%Q.

(** The range is wide enough, for the number of features and the distance of
    the section from the top of the page, for rounding not to move a step by
    a quarter of an index. *)
Definition wideEnough (features : JS.array Feature) (m : Metrics) : Prop :=
  (total features - 1) * (Z.abs (startY m) + 3 * (endY m - startY m))
  <= 2251799813685248 * (endY m - startY m).

(** ** Properties of the binary64 rounding *)

Module DoubleFacts.

Import Double.

(** Powers of two *)

Lemma pow2_pos (e : Z) : (0 < pow2 e)%Q.
Proof. apply Qpower_0_lt. reflexivity. Qed.

Lemma pow2_add (a b : Z) : (pow2 (a + b) == pow2 a * pow2 b)%Q.
Proof. apply Qpower_plus. discriminate. Qed.

Lemma pow2_sub (a b : Z) : (pow2 (a - b) == pow2 a / pow2 b)%Q.
Proof.
  unfold Z.sub. rewrite pow2_add. unfold pow2. rewrite Qpower_opp. reflexivity.
Qed.

Lemma pow2_le (a b : Z) : a <= b -> (pow2 a <= pow2 b)%Q.
Proof. intros H. apply Qpower_le_compat_l; [exact H | discriminate]. Qed.

Lemma pow2_lt (a b : Z) : a < b -> (pow2 a < pow2 b)%Q.
Proof. intros H. apply Qpower_lt_compat_l; [exact H | reflexivity]. Qed.

Lemma pow2_lt_inv (a b : Z) : (pow2 a < pow2 b)%Q -> a < b.
Proof. intros H. apply (Qpower_lt_compat_l_inv 2); [exact H | reflexivity]. Qed.

Lemma pow2_Z (j : Z) : 0 <= j -> (pow2 j == inject_Z (2 ^ j))%Q.
Proof. intros H. unfold pow2. rewrite Zpower_Qpower by exact H. reflexivity. Qed.

(** Rounding to the nearest integer, ties to even *)

Lemma rhe_comp (p q : Q) : (p == q)%Q -> rhe p = rhe q.
Proof.
  intros E. unfold rhe.
  assert (E2 : (p + (1 # 2) == q + (1 # 2))%Q) by (rewrite E; reflexivity).
  rewrite (Qfloor_comp _ _ E2), (Qeqb_comp _ _ E2 _ _ (Qeq_refl _)). reflexivity.
Qed.

Lemma rhe_near (q : Q) :
  (q - (1 # 2) <= inject_Z (rhe q))%Q /\ (inject_Z (rhe q) <= q + (1 # 2))%Q.
Proof.
  unfold rhe. pose proof (Qfloor_le (q + (1 # 2))) as L.
  pose proof (Qlt_floor (q + (1 # 2))) as U.
  rewrite inject_Z_plus in U. change (inject_Z 1) with 1%Q in U.
  destruct (Qeq_bool _ _ && Z.odd _) eqn:B.
  - apply andb_true_iff in B. destruct B as [B _]. apply Qeq_bool_iff in B.
    unfold Z.sub. rewrite inject_Z_plus, inject_Z_opp.
    change (inject_Z 1) with 1%Q. split; lra.
  - split; lra.
Qed.

Lemma rhe_Z (k : Z) : rhe (inject_Z k) = k.
Proof.
  unfold rhe.
  assert (F : Qfloor (inject_Z k + (1 # 2)) = k).
  { pose proof (Qfloor_le (inject_Z k + (1 # 2))) as L.
    pose proof (Qlt_floor (inject_Z k + (1 # 2))) as U.
    set (c := Qfloor _) in *.
    assert (L1 : (inject_Z c < inject_Z (k + 1))%Q)
      by (rewrite inject_Z_plus; change (inject_Z 1) with 1%Q; lra).
    assert (U1 : (inject_Z k < inject_Z (c + 1))%Q) by lra.
    rewrite <- Zlt_Qlt in L1, U1. lia. }
  rewrite F.
  destruct (Qeq_bool _ _) eqn:B; [|reflexivity].
  apply Qeq_bool_iff in B. lra.
Qed.

Lemma rhe_mono (p q : Q) : (p <= q)%Q -> rhe p <= rhe q.
Proof.
  intros H. unfold rhe.
  assert (F : Qfloor (p + (1 # 2)) <= Qfloor (q + (1 # 2)))
    by (apply Qfloor_resp_le; lra).
  pose proof (Qfloor_le (p + (1 # 2))) as Lp.
  set (cp := Qfloor (p + (1 # 2))) in *. set (cq := Qfloor (q + (1 # 2))) in *.
  destruct (Qeq_bool (q + (1 # 2)) (inject_Z cq) && Z.odd cq) eqn:Bq.
  - apply andb_true_iff in Bq. destruct Bq as [Eq Oq]. apply Qeq_bool_iff in Eq.
    destruct (Z.eq_dec cp cq) as [E|NE].
    + assert (Ep : (p + (1 # 2) == inject_Z cp)%Q) by (rewrite E in *; lra).
      apply Qeq_bool_iff in Ep. rewrite Ep, E, Oq. cbn. lia.
    + destruct (Qeq_bool _ _ && Z.odd cp); lia.
  - destruct (Qeq_bool _ _ && Z.odd cp); lia.
Qed.

Lemma rhe_nonneg (q : Q) : (0 <= q)%Q -> 0 <= rhe q.
Proof. intros H. rewrite <- (rhe_Z 0). apply rhe_mono. exact H. Qed.

(** The magnitude of a number *)

Lemma Qabs_frac (x : Q) :
  (Qabs x == inject_Z (Z.abs (Qnum x)) / inject_Z (Zpos (Qden x)))%Q.
Proof. destruct x as [n d]. cbn [Qnum Qden Qabs]. apply Qmake_Qdiv. Qed.

Lemma log2_bounds (n : Z) :
  0 < n -> (pow2 (Z.log2 n) <= inject_Z n)%Q /\ (inject_Z n < pow2 (Z.log2 n + 1))%Q.
Proof.
  intros H. destruct (Z.log2_spec n H) as [L U].
  pose proof (Z.log2_nonneg n) as P.
  rewrite !pow2_Z by lia. rewrite <- Zle_Qle, <- Zlt_Qlt.
  replace (Z.log2 n + 1) with (Z.succ (Z.log2 n)) by lia. split; assumption.
Qed.

Lemma mag_spec (x : Q) :
  ~ (x == 0)%Q -> (pow2 (mag x - 1) <= Qabs x)%Q /\ (Qabs x < pow2 (mag x))%Q.
Proof.
  intros NZ. unfold mag.
  assert (Hn : 0 < Z.abs (Qnum x)).
  { destruct x as [n d]. cbn [Qnum]. unfold Qeq in NZ. cbn in NZ. lia. }
  destruct (log2_bounds _ Hn) as [Ln Un].
  destruct (log2_bounds (Zpos (Qden x)) eq_refl) as [Ld Ud].
  set (a := Z.log2 (Z.abs (Qnum x))) in *. set (b := Z.log2 (Zpos (Qden x))) in *.
  pose proof (Qabs_frac x) as E.
  set (n := inject_Z (Z.abs (Qnum x))) in *. set (d := inject_Z (Zpos (Qden x))) in *.
  assert (Pd : (0 < d)%Q) by (pose proof (pow2_pos b); lra).
  assert (Up : (Qabs x < pow2 (a - b + 1))%Q).
  { rewrite E. apply Qlt_shift_div_r; [exact Pd|].
    replace (a - b + 1) with ((a + 1) - b) by lia. rewrite pow2_sub.
    pose proof (pow2_pos b). pose proof (pow2_pos (a + 1)).
    assert (X : (pow2 (a + 1) / pow2 b * pow2 b == pow2 (a + 1))%Q)
      by (field; lra).
    assert (Y : (pow2 (a + 1) / pow2 b * pow2 b <= pow2 (a + 1) / pow2 b * d)%Q).
    { apply Qmult_le_l; [|exact Ld]. apply Qlt_shift_div_l; lra. }
    lra. }
  assert (Lo : (pow2 (a - b - 1) < Qabs x)%Q).
  { rewrite E. apply Qlt_shift_div_l; [exact Pd|].
    replace (a - b - 1) with (a - (b + 1)) by lia. rewrite pow2_sub.
    pose proof (pow2_pos (b + 1)). pose proof (pow2_pos a).
    assert (X : (pow2 a / pow2 (b + 1) * pow2 (b + 1) == pow2 a)%Q)
      by (field; lra).
    assert (Y : (pow2 a / pow2 (b + 1) * d < pow2 a / pow2 (b + 1) * pow2 (b + 1))%Q).
    { apply Qmult_lt_l; [|exact Ud]. apply Qlt_shift_div_l; lra. }
    lra. }
  destruct (Qle_bool (pow2 (a - b)) (Qabs x)) eqn:B.
  - apply Qle_bool_iff in B. replace (a - b + 1 - 1) with (a - b) by lia.
    split; assumption.
  - split; [apply Qlt_le_weak; exact Lo|].
    apply Qnot_le_lt. intros C. apply Qle_bool_iff in C. congruence.
Qed.

Lemma mag_unique (x : Q) (e : Z) :
  (pow2 (e - 1) <= Qabs x)%Q -> (Qabs x < pow2 e)%Q -> mag x = e.
Proof.
  intros L U.
  assert (NZ : ~ (x == 0)%Q).
  { intros Z0. rewrite Z0 in L. cbn in L. pose proof (pow2_pos (e - 1)). lra. }
  destruct (mag_spec x NZ) as [L' U'].
  assert (A : e - 1 < mag x) by (apply pow2_lt_inv; lra).
  assert (B : mag x - 1 < e) by (apply pow2_lt_inv; lra).
  lia.
Qed.

Lemma mag_comp (x y : Q) : ~ (y == 0)%Q -> (x == y)%Q -> mag x = mag y.
Proof.
  intros NZ E. destruct (mag_spec y NZ) as [L U].
  apply mag_unique; rewrite E; assumption.
Qed.

Lemma mag_mono (x y : Q) :
  ~ (x == 0)%Q -> (Qabs x <= Qabs y)%Q -> mag x <= mag y.
Proof.
  intros NZ H.
  assert (NZy : ~ (y == 0)%Q).
  { intros Z0. rewrite Z0 in H. cbn in H.
    destruct (mag_spec x NZ) as [L _]. pose proof (pow2_pos (mag x - 1)). lra. }
  destruct (mag_spec x NZ) as [L _]. destruct (mag_spec y NZy) as [_ U].
  assert (A : mag x - 1 < mag y) by (apply pow2_lt_inv; lra). lia.
Qed.

(** Rounding a positive number *)

Lemma ulp_exp_comp (x y : Q) :
  ~ (y == 0)%Q -> (x == y)%Q -> ulp_exp x = ulp_exp y.
Proof. intros NZ E. unfold ulp_exp. rewrite (mag_comp x y NZ E). reflexivity. Qed.

Lemma rpos_comp (x y : Q) : ~ (y == 0)%Q -> (x == y)%Q -> (rpos x == rpos y)%Q.
Proof.
  intros NZ E. unfold rpos. rewrite (ulp_exp_comp x y NZ E).
  assert (E2 : (x / pow2 (ulp_exp y) == y / pow2 (ulp_exp y))%Q)
    by (rewrite E; reflexivity).
  rewrite (rhe_comp _ _ E2). reflexivity.
Qed.

Lemma rpos_le_grid (x : Q) (j : Z) :
  (x <= inject_Z j * pow2 (ulp_exp x))%Q ->
  (rpos x <= inject_Z j * pow2 (ulp_exp x))%Q.
Proof.
  intros H. unfold rpos. pose proof (pow2_pos (ulp_exp x)) as P.
  apply Qmult_le_compat_r; [|lra]. rewrite <- Zle_Qle.
  rewrite <- (rhe_Z j). apply rhe_mono. apply Qle_shift_div_r; [exact P | exact H].
Qed.

Lemma rpos_ge_grid (x : Q) (j : Z) :
  (inject_Z j * pow2 (ulp_exp x) <= x)%Q ->
  (inject_Z j * pow2 (ulp_exp x) <= rpos x)%Q.
Proof.
  intros H. unfold rpos. pose proof (pow2_pos (ulp_exp x)) as P.
  apply Qmult_le_compat_r; [|lra]. rewrite <- Zle_Qle.
  rewrite <- (rhe_Z j) at 1. apply rhe_mono. apply Qle_shift_div_l; [exact P | exact H].
Qed.

Lemma rpos_nonneg (x : Q) : (0 <= x)%Q -> (0 <= rpos x)%Q.
Proof.
  intros H. assert (G := rpos_ge_grid x 0). rewrite Qmult_0_l in G. apply G, H.
Qed.

Lemma pow2_grid (a e : Z) :
  e <= a -> (pow2 a == inject_Z (2 ^ (a - e)) * pow2 e)%Q.
Proof.
  intros H. rewrite <- pow2_Z by lia. rewrite <- pow2_add.
  replace (a - e + e) with a by lia. reflexivity.
Qed.

Lemma rpos_mono (x y : Q) : (0 < x)%Q -> (x <= y)%Q -> (rpos x <= rpos y)%Q.
Proof.
  intros Px H.
  assert (NZx : ~ (x == 0)%Q) by (intros Z0; lra).
  assert (NZy : ~ (y == 0)%Q) by (intros Z0; lra).
  assert (Ax : (Qabs x == x)%Q) by (apply Qabs_pos; lra).
  assert (Ay : (Qabs y == y)%Q) by (apply Qabs_pos; lra).
  assert (M : mag x <= mag y) by (apply mag_mono; [exact NZx | lra]).
  destruct (Z.eq_dec (ulp_exp x) (ulp_exp y)) as [E|NE].
  - unfold rpos. rewrite E. pose proof (pow2_pos (ulp_exp y)) as P.
    apply Qmult_le_compat_r; [|lra]. rewrite <- Zle_Qle. apply rhe_mono.
    apply Qmult_le_compat_r; [exact H|]. apply Qlt_le_weak, Qinv_lt_0_compat, P.
  - assert (Ey : ulp_exp y = mag y - 53) by (unfold ulp_exp in *; lia).
    assert (Lt : mag x < mag y) by (unfold ulp_exp in *; lia).
    destruct (mag_spec x NZx) as [_ Ux]. destruct (mag_spec y NZy) as [Ly _].
    rewrite Ax in Ux. rewrite Ay in Ly.
    set (b := Z.max (mag x) (ulp_exp x)).
    apply Qle_trans with (pow2 b).
    + rewrite (pow2_grid b (ulp_exp x)) by (unfold b; lia).
      apply rpos_le_grid. rewrite <- pow2_grid by (unfold b; lia).
      apply Qle_trans with (pow2 (mag x)); [lra | apply pow2_le; unfold b; lia].
    + apply Qle_trans with (pow2 (mag y - 1)).
      * apply pow2_le. unfold b, ulp_exp in *. lia.
      * rewrite (pow2_grid (mag y - 1) (ulp_exp y)) by lia.
        apply rpos_ge_grid. rewrite <- pow2_grid by lia. exact Ly.
Qed.

(** Numbers with at most 53 significant bits above the smallest exponent
    are their own rounding. *)
Lemma rpos_exact (x : Q) (m e : Z) :
  0 < m < 2 ^ 53 -> -1074 <= e -> (x == inject_Z m * pow2 e)%Q ->
  (rpos x == x)%Q.
Proof.
  intros [M0 M1] He E.
  assert (Pe : (0 < pow2 e)%Q) by apply pow2_pos.
  assert (Pm : (0 < inject_Z m)%Q)
    by (change 0%Q with (inject_Z 0); rewrite <- Zlt_Qlt; exact M0).
  assert (Px : (0 < x)%Q) by (rewrite E; apply Qmult_lt_0_compat; assumption).
  assert (NZ : ~ (x == 0)%Q) by (intros Z0; lra).
  assert (Ax : (Qabs x == x)%Q) by (apply Qabs_pos; lra).
  destruct (mag_spec x NZ) as [L _]. rewrite Ax in L.
  assert (U : (x < pow2 (53 + e))%Q).
  { rewrite E, pow2_add. apply Qmult_lt_compat_r; [exact Pe|].
    rewrite pow2_Z by lia. rewrite <- Zlt_Qlt. exact M1. }
  assert (Mg : mag x - 1 < 53 + e) by (apply pow2_lt_inv; lra).
  assert (Ue : ulp_exp x <= e) by (unfold ulp_exp; lia).
  unfold rpos. set (u := ulp_exp x) in *.
  assert (G : (x / pow2 u == inject_Z (m * 2 ^ (e - u)))%Q).
  { rewrite E, (pow2_grid e u Ue), inject_Z_mult. field.
    pose proof (pow2_pos u). lra. }
  rewrite (rhe_comp _ _ G), rhe_Z, <- G. field. pose proof (pow2_pos u). lra.
Qed.

Lemma rpos_error (x : Q) :
  (0 < x)%Q ->
  (x - (eps * x + eta) <= rpos x)%Q /\ (rpos x <= x + (eps * x + eta))%Q.
Proof.
  intros Px.
  assert (NZ : ~ (x == 0)%Q) by (intros Z0; lra).
  assert (Ax : (Qabs x == x)%Q) by (apply Qabs_pos; lra).
  destruct (mag_spec x NZ) as [L _]. rewrite Ax in L.
  unfold rpos. set (u := ulp_exp x).
  pose proof (pow2_pos u) as Pu.
  destruct (rhe_near (x / pow2 u)) as [Lo Hi].
  assert (X : (x / pow2 u * pow2 u == x)%Q) by (field; lra).
  assert (H : (pow2 u * (1 # 2) <= eps * x + eta)%Q).
  { unfold eps, eta. pose proof (pow2_pos (-1075)). pose proof (pow2_pos (-53)).
    assert (C : u = mag x - 53 \/ u = -1074) by (unfold u, ulp_exp; lia).
    destruct C as [C|C]; rewrite C.
    - replace (mag x - 53) with ((-53) + (mag x - 1) + 1) by lia.
      rewrite !pow2_add. change (pow2 1) with 2%Q. nra.
    - replace (-1074) with (-1075 + 1) by lia. rewrite pow2_add.
      change (pow2 1) with 2%Q. nra. }
  split; nra.
Qed.

(** Rounding *)

Lemma rnd_cases (x : Q) :
  ((x == 0)%Q /\ rnd x = 0%Q)
  \/ ((0 < x)%Q /\ (rnd x == rpos x)%Q)
  \/ ((x < 0)%Q /\ (rnd x == - rpos (- x))%Q).
Proof.
  unfold rnd. destruct (x ?= 0)%Q eqn:C.
  - left. split; [apply Qeq_alt; exact C | reflexivity].
  - right. right. split; [apply Qlt_alt; exact C | apply Qred_correct].
  - right. left. split; [apply Qgt_alt; exact C | apply Qred_correct].
Qed.

Lemma rnd_comp (x y : Q) : (x == y)%Q -> rnd x = rnd y.
Proof.
  intros E. unfold rnd. rewrite (Qcompare_comp x y E 0%Q 0%Q (Qeq_refl 0%Q)).
  apply Qred_complete. destruct (y ?= 0)%Q eqn:C.
  - reflexivity.
  - assert (NZ : ~ (- y == 0)%Q)
      by (apply Qlt_alt in C; intros Z0; lra).
    rewrite (rpos_comp (- x) (- y) NZ) by (rewrite E; reflexivity). reflexivity.
  - assert (NZ : ~ (y == 0)%Q) by (apply Qgt_alt in C; intros Z0; lra).
    apply rpos_comp; assumption.
Qed.

Lemma rnd_0 : rnd 0 = 0%Q.
Proof. reflexivity. Qed.

Lemma rnd_nonneg (x : Q) : (0 <= x)%Q -> (0 <= rnd x)%Q.
Proof.
  intros H. destruct (rnd_cases x) as [[_ E]|[[P E]|[N _]]].
  - rewrite E. lra.
  - rewrite E. apply rpos_nonneg. lra.
  - lra.
Qed.

Lemma rnd_nonpos (x : Q) : (x <= 0)%Q -> (rnd x <= 0)%Q.
Proof.
  intros H. destruct (rnd_cases x) as [[_ E]|[[P _]|[N E]]].
  - rewrite E. lra.
  - lra.
  - rewrite E. assert (0 <= rpos (- x))%Q by (apply rpos_nonneg; lra). lra.
Qed.

Lemma rnd_mono (x y : Q) : (x <= y)%Q -> (rnd x <= rnd y)%Q.
Proof.
  intros H. destruct (rnd_cases x) as [[Zx Ex]|[[Px Ex]|[Nx Ex]]].
  - rewrite Ex. apply rnd_nonneg. lra.
  - destruct (rnd_cases y) as [[Zy _]|[[Py Ey]|[Ny _]]]; try lra.
    rewrite Ex, Ey. apply rpos_mono; assumption.
  - destruct (Qlt_le_dec y 0) as [Ny|Py].
    + destruct (rnd_cases y) as [[Zy _]|[[Py _]|[_ Ey]]]; try lra.
      rewrite Ex, Ey.
      assert (rpos (- y) <= rpos (- x))%Q by (apply rpos_mono; lra). lra.
    + apply Qle_trans with 0%Q; [apply rnd_nonpos; lra | apply rnd_nonneg; exact Py].
Qed.

Lemma rnd_exact (x : Q) (m e : Z) :
  Z.abs m < 2 ^ 53 -> -1074 <= e -> (x == inject_Z m * pow2 e)%Q ->
  (rnd x == x)%Q.
Proof.
  intros M He E. pose proof (pow2_pos e) as Pe.
  destruct (rnd_cases x) as [[Zx Ex]|[[Px Ex]|[Nx Ex]]].
  - rewrite Ex, Zx. reflexivity.
  - rewrite Ex. apply (rpos_exact x m e); [|exact He | exact E].
    split; [|lia].
    destruct (Z_lt_le_dec 0 m) as [G|G]; [exact G|].
    assert (inject_Z m <= 0)%Q
      by (change 0%Q with (inject_Z 0); rewrite <- Zle_Qle; exact G).
    nra.
  - rewrite Ex. rewrite (rpos_exact (- x) (- m) e); [ring | | exact He |].
    + split; [|lia].
      destruct (Z_lt_le_dec m 0) as [G|G]; [lia|].
      assert (0 <= inject_Z m)%Q
        by (change 0%Q with (inject_Z 0); rewrite <- Zle_Qle; exact G).
      nra.
    + rewrite E, inject_Z_opp. ring.
Qed.

Lemma rnd_Z (k : Z) : Z.abs k < 2 ^ 53 -> (rnd (inject_Z k) == inject_Z k)%Q.
Proof.
  intros H. apply (rnd_exact _ k 0); [exact H | lia |].
  change (pow2 0) with 1%Q. ring.
Qed.


Lemma rnd_error (x : Q) :
  (Qabs (rnd x - x) <= eps * Qabs x + eta)%Q.
Proof.
  assert (Pe : (0 < eta)%Q) by apply pow2_pos.
  destruct (rnd_cases x) as [[Zx Ex]|[[Px Ex]|[Nx Ex]]].
  - rewrite Ex. setoid_replace (0 - x)%Q with 0%Q by (rewrite Zx; ring).
    pose proof (Qabs_nonneg x). assert (0 < eps)%Q by apply pow2_pos.
    change (Qabs 0) with 0%Q. nra.
  - rewrite (Qabs_pos x) by lra. apply Qabs_Qle_condition.
    destruct (rpos_error x Px). rewrite Ex. split; lra.
  - rewrite (Qabs_neg x) by lra. apply Qabs_Qle_condition.
    destruct (rpos_error (- x)) as [A B]; [lra|]. rewrite Ex. split; lra.
Qed.

End DoubleFacts.

(** ** Arithmetic of [Math.round] *)

Module Round.

Import JS.

Lemma Math_round_comp (x y : Q) : (x == y)%Q -> Math_round x = Math_round y.
Proof.
  intros E. unfold Math_round. apply Qfloor_comp. rewrite E. reflexivity.
Qed.

(** Between an integer and that integer plus a half (excluded), the result
    is the integer. *)
Lemma Math_round_down (x : Q) (k : Z) :
  (inject_Z k - (1 # 2) <= x)%Q -> (x < inject_Z k + (1 # 2))%Q ->
  Math_round x = k.
Proof.
  intros Hlo Hhi. unfold Math_round.
  assert (L : (inject_Z k <= x + (1 # 2))%Q) by lra.
  assert (U : (x + (1 # 2) < inject_Z (k + 1))%Q).
  { rewrite inject_Z_plus. change (inject_Z 1) with 1%Q. lra. }
  apply Qfloor_resp_le in L. rewrite Qfloor_Z in L.
  pose proof (Qfloor_le (x + (1 # 2))) as F.
  assert (S : (inject_Z (Qfloor (x + (1 # 2))) < inject_Z (k + 1))%Q) by lra.
  rewrite <- Zlt_Qlt in S. lia.
Qed.

Lemma Math_round_integer (k : Z) : Math_round (inject_Z k) = k.
Proof. apply Math_round_down; lra. Qed.


Lemma Math_round_mono (x y : Q) : (x <= y)%Q -> Math_round x <= Math_round y.
Proof. intros H. unfold Math_round. apply Qfloor_resp_le. lra. Qed.

Lemma Math_round_between (x : Q) (n : Z) :
  (0 <= x)%Q -> (x <= inject_Z n)%Q -> 0 <= Math_round x <= n.
Proof.
  intros H0 Hn. split.
  - pose proof (Math_round_mono _ _ H0) as L.
    change 0%Q with (inject_Z 0) in L. rewrite Math_round_integer in L. exact L.
  - pose proof (Math_round_mono _ _ Hn) as U.
    rewrite Math_round_integer in U. exact U.
Qed.

End Round.

(** ** Equations of the handlers *)

Ltac run_handler :=
  cbv beta iota zeta delta
    [bind ret setActive getMetrics putMetrics getTicking putTicking
     window_scrollTo window_requestAnimationFrame state calls result
     fst snd app];
  cbn [active metricsRef ticking].

Section Equations.

Variable features : JS.array Feature.

Lemma clamp_code (n : Z) :
  JS.Math_max 0 (JS.Math_min (total features - 1) n)
  = clamp n 0 (total features - 1).
Proof. unfold clamp, JS.Math_max, JS.Math_min. lia. Qed.

Lemma clamp_valid (n : Z) :
  1 <= total features -> validIndex features (clamp n 0 (total features - 1)).
Proof. unfold validIndex, clamp. lia. Qed.

Lemma clamp_id (n : Z) :
  validIndex features n -> clamp n 0 (total features - 1) = n.
Proof. unfold validIndex, clamp. lia. Qed.

(** The conventional, piecewise reading of [clamp] on a non-empty range. *)
Lemma clamp_piecewise (x lo hi : Z) :
  lo <= hi ->
  clamp x lo hi = if x <? lo then lo else if hi <? x then hi else x.
Proof.
  intros H. unfold clamp.
  destruct (Z.ltb_spec x lo); [lia|]. destruct (Z.ltb_spec hi x); lia.
Qed.

Lemma total_nonneg : 0 <= total features.
Proof. unfold total, JS.length. lia. Qed.

Lemma total_pos : JS.items features <> [] -> 1 <= total features.
Proof.
  unfold total, JS.length. destruct features as [[|f fs] H]; cbn [JS.items];
    [congruence | cbn [List.length]; lia].
Qed.

Lemma currentY_scrollY (w : Window) : currentY w = scrollY w.
Proof.
  unfold currentY, JS.or_else, pageYOffset. destruct (JS.truthy _); reflexivity.
Qed.

Lemma scrollToIndex_state (n : Z) (s : Showcase) :
  state (scrollToIndex features n s)
  = mkShowcase (clamp n 0 (total features - 1)) (metricsRef s) (ticking s).
Proof.
  unfold scrollToIndex. rewrite clamp_code. run_handler.
  destruct (Qle_bool _ _); reflexivity.
Qed.

Lemma scrollToIndex_calls (n : Z) (s : Showcase) :
  calls (scrollToIndex features n s)
  = SetActive (clamp n 0 (total features - 1))
    :: (if Qle_bool (endY (metricsRef s)) (startY (metricsRef s)) then []
        else [ScrollTo (target features (metricsRef s) n) Smooth]).
Proof.
  unfold scrollToIndex, target. rewrite clamp_code. run_handler.
  destruct (Qle_bool _ _); reflexivity.
Qed.

Lemma inStickyRange_true (m : Metrics) (y : Q) :
  inStickyRange m y = true
  <-> (startY m <= y)%Q /\ (y <= endY m)%Q /\ (startY m < endY m)%Q.
Proof.
  unfold inStickyRange, JS.Qlt_bool.
  rewrite !andb_true_iff, negb_true_iff, !Qle_bool_iff.
  rewrite <- not_true_iff_false, Qle_bool_iff.
  split; intros H; repeat split; try tauto.
  - apply Qnot_le_lt; tauto.
  - apply Qlt_not_le; tauto.
Qed.

Lemma onScrollFrame_state (seen : Z) (dom : Dom) (s : Showcase) :
  state (onScrollFrame features seen dom s)
  = mkShowcase
      (if inStickyRange (metricsRef s) (scrollY (window dom))
       then if negb (nextIndex features (metricsRef s) (scrollY (window dom)) =? seen)
            then nextIndex features (metricsRef s) (scrollY (window dom))
            else active s
       else active s)
      (metricsRef s) false.
Proof.
  unfold onScrollFrame, nextIndex. rewrite currentY_scrollY. run_handler.
  destruct (inStickyRange _ _); [|reflexivity].
  destruct (negb _); reflexivity.
Qed.

Lemma onScroll_unmounted (dom : Dom) (s : Showcase) :
  sectionRef dom = None -> onScroll dom s = (false, s, []).
Proof. intros H. unfold onScroll. rewrite H. reflexivity. Qed.

Lemma onScroll_ticking (dom : Dom) (s : Showcase) :
  ticking s = true -> onScroll dom s = (false, s, []).
Proof.
  intros H. unfold onScroll. destruct (sectionRef dom); [|reflexivity].
  run_handler. rewrite H. reflexivity.
Qed.

Lemma onScroll_requests (dom : Dom) (s : Showcase) (el : Element) :
  sectionRef dom = Some el -> ticking s = false ->
  onScroll dom s
  = (true, mkShowcase (active s) (metricsRef s) true, [RequestAnimationFrame]).
Proof.
  intros Hm Ht. unfold onScroll. rewrite Hm. run_handler. rewrite Ht.
  reflexivity.
Qed.

(** [onScroll] itself never touches the index or the metrics. *)
Lemma onScroll_frame_condition (dom : Dom) (s : Showcase) :
  active (state (onScroll dom s)) = active s
  /\ metricsRef (state (onScroll dom s)) = metricsRef s.
Proof.
  destruct (sectionRef dom) as [el|] eqn:Hm.
  - destruct (ticking s) eqn:Ht.
    + rewrite onScroll_ticking by exact Ht. split; reflexivity.
    + rewrite (onScroll_requests _ _ _ Hm Ht). split; reflexivity.
  - rewrite onScroll_unmounted by exact Hm. split; reflexivity.
Qed.

Lemma scrollEvent_state (seen : Z) (dom : Dom) (s : Showcase) :
  state (scrollEvent features seen dom s)
  = match sectionRef dom with
    | None => s
    | Some _ =>
        if ticking s then s
        else state (onScrollFrame features seen dom
                      (mkShowcase (active s) (metricsRef s) true))
    end.
Proof.
  unfold scrollEvent, bind.
  destruct (sectionRef dom) as [el|] eqn:Hm.
  - destruct (ticking s) eqn:Ht.
    + rewrite onScroll_ticking by exact Ht. reflexivity.
    + rewrite (onScroll_requests _ _ _ Hm Ht).
      destruct (onScrollFrame _ _ _ _) as [[u s2] c2]. reflexivity.
  - rewrite onScroll_unmounted by exact Hm. reflexivity.
Qed.

End Equations.

(** ** Arithmetic of the index map and of the scroll target *)

#[global] Instance rnd_proper : Proper (Qeq ==> Qeq) Double.rnd.
Proof. intros x y E. rewrite (DoubleFacts.rnd_comp x y E). reflexivity. Qed.

Section FrameArithmetic.

Variable features : JS.array Feature.

Lemma px_bound (p : JS.px) : Z.abs p <= 8589934592.
Proof.
  destruct p as [z H]. cbn [JS.px_val]. unfold JS.is_px in H.
  apply andb_true_iff in H. destruct H as [A B].
  apply Z.leb_le in A, B. lia.
Qed.

Lemma long_bound (a : JS.long) : -2147483648 <= a <= 2147483647.
Proof.
  destruct a as [z H]. cbn [JS.long_val]. unfold JS.is_long in H.
  apply andb_true_iff in H. destruct H as [A B].
  apply Z.leb_le in A, B. lia.
Qed.

Lemma px_of_val (z : Z) : Z.abs z <= 8589934592 -> JS.px_val (JS.px_of z) = z.
Proof.
  intros H. unfold JS.px_of.
  assert (E : JS.is_px z = true).
  { unfold JS.is_px. apply andb_true_iff. split; apply Z.leb_le; lia. }
  generalize (eq_refl (JS.is_px z)). generalize (JS.is_px z) at 2 3.
  intros b. destruct b; intros Hb; [reflexivity | congruence].
Qed.

Lemma array_bound : 0 <= total features <= 4294967295.
Proof.
  unfold total. destruct features as [xs H]. cbn [JS.items].
  unfold JS.is_array in H. apply Z.leb_le in H. unfold JS.length in *. lia.
Qed.

Lemma rnd_small (k : Z) :
  Z.abs k <= 34359738368 -> (Double.rnd (inject_Z k) == inject_Z k)%Q.
Proof. intros H. apply DoubleFacts.rnd_Z. change (2 ^ 53) with 9007199254740992. lia. Qed.

Lemma rnd_px (p : JS.px) : (Double.rnd (inject_Z p) == inject_Z p)%Q.
Proof. apply rnd_small. pose proof (px_bound p). lia. Qed.

Lemma sub_px (p q : JS.px) : (Double.sub p q == inject_Z (p - q))%Q.
Proof.
  unfold Double.sub.
  setoid_replace (inject_Z p - inject_Z q)%Q with (inject_Z (p - q))
    by (unfold Z.sub; rewrite inject_Z_plus, inject_Z_opp; reflexivity).
  apply rnd_small. pose proof (px_bound p). pose proof (px_bound q). lia.
Qed.

Lemma rnd_total : (Double.rnd (inject_Z (total features - 1)) == inject_Z (total features - 1))%Q.
Proof. apply rnd_small. pose proof array_bound. lia. Qed.

Lemma nextIndex_scaled (m : Metrics) (y : Q) :
  nextIndex features m y = JS.Math_round (scaled features m y).
Proof.
  unfold nextIndex, scaled, Double.mul, Double.div. apply Round.Math_round_comp.
  rewrite sub_px. reflexivity.
Qed.

Lemma scaled_comp (m : Metrics) (y y' : Q) :
  (y == y')%Q -> (scaled features m y == scaled features m y')%Q.
Proof.
  intros E. unfold scaled, Double.mul, Double.div, Double.sub. rewrite E. reflexivity.
Qed.

Section InRange.

Variables (m : Metrics) (y : Q).
Hypothesis lower : (inject_Z (startY m) <= y)%Q.
Hypothesis upper : (y <= inject_Z (endY m))%Q.
Hypothesis proper : (inject_Z (startY m) < inject_Z (endY m))%Q.

Lemma range_length :
  1 <= endY m - startY m
  /\ (inject_Z (endY m - startY m) == inject_Z (endY m) - inject_Z (startY m))%Q.
Proof.
  split.
  - rewrite <- Zlt_Qlt in proper. lia.
  - unfold Z.sub. rewrite inject_Z_plus, inject_Z_opp. reflexivity.
Qed.

Lemma offset_bounds :
  (0 <= Double.sub y (startY m))%Q
  /\ (Double.sub y (startY m) <= inject_Z (endY m - startY m))%Q.
Proof.
  destruct range_length as [D1 DE]. unfold Double.sub. split.
  - apply DoubleFacts.rnd_nonneg. lra.
  - rewrite <- (rnd_small (endY m - startY m))
      by (pose proof (px_bound (endY m)); pose proof (px_bound (startY m)); lia).
    apply DoubleFacts.rnd_mono. lra.
Qed.

Lemma progress_bounds :
  (0 <= Double.div (Double.sub y (startY m)) (inject_Z (endY m - startY m)))%Q
  /\ (Double.div (Double.sub y (startY m)) (inject_Z (endY m - startY m)) <= 1)%Q.
Proof.
  destruct range_length as [D1 _]. destruct offset_bounds as [A0 A1].
  assert (PD : (0 < inject_Z (endY m - startY m))%Q)
    by (change 0%Q with (inject_Z 0); rewrite <- Zlt_Qlt; lia).
  unfold Double.div. split.
  - apply DoubleFacts.rnd_nonneg. apply Qle_shift_div_l; [exact PD | lra].
  - change 1%Q with (inject_Z 1). rewrite <- (rnd_small 1) by (cbn; lia).
    apply DoubleFacts.rnd_mono. apply Qle_shift_div_r; [exact PD|].
    change (inject_Z 1) with 1%Q. lra.
Qed.

Lemma scaled_bounds :
  0 <= total features - 1 ->
  (0 <= scaled features m y)%Q /\ (scaled features m y <= inject_Z (total features - 1))%Q.
Proof.
  intros N0. destruct progress_bounds as [P0 P1]. unfold scaled.
  set (p := Double.div (Double.sub y (startY m)) (inject_Z (endY m - startY m))) in *.
  assert (PN : (0 <= inject_Z (total features - 1))%Q)
    by (change 0%Q with (inject_Z 0); rewrite <- Zle_Qle; exact N0).
  unfold Double.mul. split.
  - apply DoubleFacts.rnd_nonneg. apply Qmult_le_0_compat; assumption.
  - rewrite <- rnd_total at 2. apply DoubleFacts.rnd_mono.
    rewrite <- (Qmult_1_l (inject_Z (total features - 1))) at 2.
    apply Qmult_le_compat_r; assumption.
Qed.

Lemma nextIndex_in_range :
  1 <= total features -> validIndex features (nextIndex features m y).
Proof.
  intros T. unfold validIndex. rewrite nextIndex_scaled.
  destruct (scaled_bounds ltac:(lia)) as [L U].
  apply Round.Math_round_between; assumption.
Qed.

End InRange.

(** The ends of the sticky range map to the first and the last index. *)
Lemma nextIndex_start (m : Metrics) (y : Q) :
  (inject_Z (startY m) < inject_Z (endY m))%Q -> (y == inject_Z (startY m))%Q ->
  nextIndex features m y = 0.
Proof.
  intros Hd Hy. rewrite nextIndex_scaled. unfold scaled.
  transitivity (JS.Math_round (inject_Z 0)); [|apply Round.Math_round_integer].
  apply Round.Math_round_comp.
  assert (A : Double.sub y (startY m) = 0%Q).
  { unfold Double.sub. rewrite (DoubleFacts.rnd_comp _ 0%Q) by (rewrite Hy; ring).
    reflexivity. }
  rewrite A.
  assert (B : Double.div 0 (inject_Z (endY m - startY m)) = 0%Q).
  { unfold Double.div. rewrite (DoubleFacts.rnd_comp _ 0%Q) by (unfold Qdiv; ring).
    reflexivity. }
  rewrite B. unfold Double.mul. rewrite (DoubleFacts.rnd_comp _ 0%Q) by ring.
  reflexivity.
Qed.

Lemma nextIndex_end (m : Metrics) (y : Q) :
  (inject_Z (startY m) < inject_Z (endY m))%Q -> (y == inject_Z (endY m))%Q ->
  nextIndex features m y = total features - 1.
Proof.
  intros Hd Hy. rewrite nextIndex_scaled. unfold scaled, Double.mul, Double.div.
  transitivity (JS.Math_round (inject_Z (total features - 1)));
    [|apply Round.Math_round_integer].
  apply Round.Math_round_comp.
  assert (E : (Double.sub y (startY m) == inject_Z (endY m - startY m))%Q).
  { rewrite <- sub_px. unfold Double.sub. rewrite Hy. reflexivity. }
  rewrite E.
  assert (P : ~ (inject_Z (endY m - startY m) == 0)%Q).
  { change 0%Q with (inject_Z 0). rewrite inject_Z_injective.
    rewrite <- Zlt_Qlt in Hd. lia. }
  setoid_replace (inject_Z (endY m - startY m) / inject_Z (endY m - startY m))%Q
    with (inject_Z 1) by (field; exact P).
  rewrite (rnd_small 1) by (cbn; lia).
  setoid_replace (inject_Z 1 * inject_Z (total features - 1))%Q
    with (inject_Z (total features - 1)) by ring.
  apply rnd_total.
Qed.

Lemma nextIndex_comp (m : Metrics) (y y' : Q) :
  (y == y')%Q -> nextIndex features m y = nextIndex features m y'.
Proof.
  intros E. rewrite !nextIndex_scaled. apply Round.Math_round_comp, scaled_comp, E.
Qed.

Lemma inStickyRange_comp (m : Metrics) (y y' : Q) :
  (y == y')%Q -> inStickyRange m y = inStickyRange m y'.
Proof. intros E. unfold inStickyRange. rewrite E. reflexivity. Qed.

(** Rounding is monotone at every step, so the index is monotone in the
    offset. *)
Lemma nextIndex_mono (m : Metrics) (y y' : Q) :
  1 <= total features -> nonDegenerate m -> (y <= y')%Q ->
  nextIndex features m y <= nextIndex features m y'.
Proof.
  unfold nonDegenerate. intros T D H. rewrite !nextIndex_scaled.
  apply Round.Math_round_mono. unfold scaled, Double.mul, Double.div, Double.sub.
  assert (N : (0 <= inject_Z (total features - 1))%Q).
  { change 0%Q with (inject_Z 0). rewrite <- Zle_Qle. lia. }
  assert (P : (0 < inject_Z (endY m - startY m))%Q).
  { change 0%Q with (inject_Z 0). rewrite <- Zlt_Qlt. rewrite <- Zlt_Qlt in D. lia. }
  apply DoubleFacts.rnd_mono. apply Qmult_le_compat_r; [|exact N].
  apply DoubleFacts.rnd_mono. apply Qmult_le_compat_r;
    [|apply Qlt_le_weak, Qinv_lt_0_compat, P].
  apply DoubleFacts.rnd_mono. lra.
Qed.

(** *** How far rounding moves the index map and the target *)

Lemma eps_value : (Double.eps == 1 # 9007199254740992)%Q.
Proof. reflexivity. Qed.

Lemma eta_small : (0 < Double.eta)%Q /\ (Double.eta <= 1 # 18446744073709551616)%Q.
Proof.
  split; [apply DoubleFacts.pow2_pos|].
  apply Qle_trans with (Double.pow2 (-64)); [|unfold Qle; cbn; lia].
  apply DoubleFacts.pow2_le. lia.
Qed.

(** The rounding error of a value bounded by [b]. *)
Lemma rnd_within (x b : Q) :
  (Qabs x <= b)%Q ->
  (x - (Double.eps * b + Double.eta) <= Double.rnd x)%Q
  /\ (Double.rnd x <= x + (Double.eps * b + Double.eta))%Q.
Proof.
  intros H. pose proof (DoubleFacts.rnd_error x) as E.
  apply Qabs_Qle_condition in E.
  assert (Pe : (0 < Double.eps)%Q) by apply DoubleFacts.pow2_pos.
  assert (X : (Double.eps * Qabs x <= Double.eps * b)%Q)
    by (apply Qmult_le_l; assumption).
  split; lra.
Qed.

Lemma accuracy_arith (u h d n z a q p P : Q) :
  (0 < u)%Q -> (0 < h)%Q -> (1 <= d)%Q -> (0 <= n)%Q ->
  (0 <= z)%Q -> (z <= d)%Q ->
  (z - (u * d + h) <= a)%Q -> (a <= z + (u * d + h))%Q ->
  (q * d == a)%Q ->
  (q - (u * 1 + h) <= p)%Q -> (p <= q + (u * 1 + h))%Q ->
  (0 <= p)%Q -> (p <= 1)%Q ->
  (p * n - (u * n + h) <= P)%Q -> (P <= p * n + (u * n + h))%Q ->
  forall X : Q, (X * d == z)%Q ->
  (X * n - (3 * u * n + h * (1 + 2 * n)) <= P)%Q
  /\ (P <= X * n + (3 * u * n + h * (1 + 2 * n)))%Q.
Proof.
  intros Pu Ph Pd Pn Z0 Z1 A0 A1 Q P0 P1 Pp0 Pp1 R0 R1 X HX.
  assert (QX1 : (q - X <= u + h)%Q) by nra.
  assert (QX0 : (- (u + h) <= q - X)%Q) by nra.
  assert (N1 : ((q - X) * n <= (u + h) * n)%Q) by nra.
  assert (N0 : (- ((u + h) * n) <= (q - X) * n)%Q) by nra.
  assert (M1 : ((p - q) * n <= (u + h) * n)%Q) by nra.
  assert (M0 : (- ((u + h) * n) <= (p - q) * n)%Q) by nra.
  split; nra.
Qed.

Lemma slack_bound (n : Q) :
  (0 <= n)%Q -> (n <= 4294967296)%Q ->
  (3 * Double.eps * n + Double.eta * (1 + 2 * n) <= slack)%Q.
Proof.
  intros N0 N1. destruct eta_small as [H0 H1]. pose proof eps_value as E.
  unfold slack. set (u := Double.eps) in *. set (h := Double.eta) in *.
  assert (A : (3 * u * n <= 3 * (1 # 9007199254740992) * 4294967296)%Q) by nra.
  assert (B : (h * (1 + 2 * n) <= (1 # 18446744073709551616) * (1 + 2 * 4294967296))%Q)
    by nra.
  assert (C : (3 * (1 # 9007199254740992) * 4294967296
               + (1 # 18446744073709551616) * (1 + 2 * 4294967296)
               <= 1 # 524288)%Q) by (unfold Qle; cbn; lia).
  lra.
Qed.

(** Inside the sticky range the value that is rounded to the index is
    within [slack] = 2^-19 of the exact [(y - startY) * (total - 1) /
    (endY - startY)]. *)
Lemma scaled_accuracy (m : Metrics) (y : Q) :
  (inject_Z (startY m) <= y)%Q -> (y <= inject_Z (endY m))%Q ->
  (inject_Z (startY m) < inject_Z (endY m))%Q -> 0 <= total features - 1 ->
  let X := ((y - inject_Z (startY m)) / inject_Z (endY m - startY m))%Q in
  (X * inject_Z (total features - 1) - slack <= scaled features m y)%Q
  /\ (scaled features m y <= X * inject_Z (total features - 1) + slack)%Q.
Proof.
  intros L U D N0 X.
  destruct (range_length m D) as [D1 DE].
  destruct (offset_bounds m y L U D) as [A0 A1].
  destruct (progress_bounds m y L U D) as [P0 P1].
  set (d := inject_Z (endY m - startY m)) in *.
  set (n := inject_Z (total features - 1)) in *.
  assert (Pd : (1 <= d)%Q)
    by (unfold d; change 1%Q with (inject_Z 1); rewrite <- Zle_Qle; exact D1).
  assert (Pn : (0 <= n)%Q)
    by (unfold n; change 0%Q with (inject_Z 0); rewrite <- Zle_Qle; exact N0).
  assert (Pn1 : (n <= 4294967296)%Q).
  { unfold n. change 4294967296%Q with (inject_Z 4294967296). rewrite <- Zle_Qle.
    pose proof array_bound. lia. }
  set (z := (y - inject_Z (startY m))%Q) in *.
  assert (Z0 : (0 <= z)%Q) by (unfold z; lra).
  assert (Z1 : (z <= d)%Q) by (unfold z; lra).
  destruct (rnd_within z d) as [Ra0 Ra1]; [rewrite Qabs_pos; assumption|].
  fold (Double.sub y (startY m)) in Ra0, Ra1.
  set (a := Double.sub y (startY m)) in *.
  set (q := (a / d)%Q).
  assert (Q1 : (q * d == a)%Q) by (unfold q; field; intros Z0'; lra).
  assert (Q0 : (0 <= q)%Q) by (unfold q; apply Qle_shift_div_l; lra).
  assert (Qle1 : (q <= 1)%Q) by (unfold q; apply Qle_shift_div_r; lra).
  destruct (rnd_within q 1) as [Rp0 Rp1]; [rewrite Qabs_pos; assumption|].
  fold (Double.div a d) in Rp0, Rp1, P0, P1.
  set (p := Double.div a d) in *.
  destruct (rnd_within (p * n) n) as [RP0 RP1].
  { rewrite Qabs_pos by (apply Qmult_le_0_compat; assumption).
    rewrite <- (Qmult_1_l n) at 2. apply Qmult_le_compat_r; assumption. }
  fold (Double.mul p n) in RP0, RP1.
  assert (HX : (X * d == z)%Q) by (unfold X; fold d z; field; intros Z0'; lra).
  destruct (accuracy_arith Double.eps Double.eta d n z a q p (Double.mul p n)
              (DoubleFacts.pow2_pos _) (DoubleFacts.pow2_pos _) Pd Pn Z0 Z1
              Ra0 Ra1 Q1 Rp0 Rp1 P0 P1 RP0 RP1 X HX) as [F0 F1].
  pose proof (slack_bound n Pn Pn1) as S.
  unfold scaled. fold d n a p. split; lra.
Qed.

(** An offset whose exact index value stays [slack] away from the two
    nearest ties is mapped to the index the exact value rounds to. *)
Lemma nextIndex_near (m : Metrics) (y : Q) (i : Z) :
  (inject_Z (startY m) <= y)%Q -> (y <= inject_Z (endY m))%Q ->
  (inject_Z (startY m) < inject_Z (endY m))%Q -> 1 <= total features ->
  let x := ((y - inject_Z (startY m)) / inject_Z (endY m - startY m)
            * inject_Z (total features - 1))%Q in
  (inject_Z i - (1 # 2) + slack <= x)%Q -> (x < inject_Z i + (1 # 2) - slack)%Q ->
  nextIndex features m y = i.
Proof.
  intros L U D T x Lo Hi.
  destruct (scaled_accuracy m y L U D) as [A0 A1]; [lia|].
  rewrite nextIndex_scaled. fold x in A0, A1.
  apply Round.Math_round_down; lra.
Qed.

(** Away from the ties the index the code computes is the one the exact
    formula gives. *)
Lemma nextIndex_exact (m : Metrics) (y : Q) (i : Z) :
  (inject_Z (startY m) <= y)%Q -> (y <= inject_Z (endY m))%Q ->
  (inject_Z (startY m) < inject_Z (endY m))%Q -> 1 <= total features ->
  let x := ((y - inject_Z (startY m)) / (inject_Z (endY m) - inject_Z (startY m))
            * inject_Z (total features - 1))%Q in
  (inject_Z i - (1 # 2) + slack <= x)%Q -> (x < inject_Z i + (1 # 2) - slack)%Q ->
  nextIndex features m y = i /\ exactIndex features m y = i.
Proof.
  intros L U D T x Lo Hi.
  destruct (range_length m D) as [_ DE].
  assert (X : (x == (y - inject_Z (startY m)) / inject_Z (endY m - startY m)
                    * inject_Z (total features - 1))%Q)
    by (unfold x; rewrite DE; reflexivity).
  split.
  - apply nextIndex_near; try assumption; rewrite <- X; assumption.
  - unfold exactIndex. fold x. unfold slack in Lo, Hi.
    apply Round.Math_round_down; lra.
Qed.

(** *** The scroll target *)

Lemma target_fraction (m : Metrics) (n : Z) :
  (target features m n
   == Double.rnd (inject_Z (startY m)
                  + Double.rnd (fraction features n * inject_Z (endY m - startY m))))%Q.
Proof.
  unfold target, fraction, Double.add, Double.mul. rewrite sub_px. reflexivity.
Qed.

Lemma fraction_bounds (n : Z) : (0 <= fraction features n)%Q /\ (fraction features n <= 1)%Q.
Proof.
  unfold fraction. destruct (Z.ltb_spec 1 (total features)) as [T|T]; [|split; lra].
  set (c := clamp n 0 (total features - 1)).
  assert (C : 0 <= c <= total features - 1) by (unfold c, clamp; lia).
  assert (P : (0 < inject_Z (total features - 1))%Q).
  { change 0%Q with (inject_Z 0). rewrite <- Zlt_Qlt. lia. }
  assert (I0 : (0 <= inject_Z c)%Q).
  { change 0%Q with (inject_Z 0). rewrite <- Zle_Qle. lia. }
  assert (I1 : (inject_Z c <= inject_Z (total features - 1))%Q).
  { rewrite <- Zle_Qle. lia. }
  unfold Double.div. split.
  - apply DoubleFacts.rnd_nonneg. apply Qle_shift_div_l; [exact P | lra].
  - change 1%Q with (inject_Z 1). rewrite <- (rnd_small 1) by (cbn; lia).
    apply DoubleFacts.rnd_mono. apply Qle_shift_div_r; [exact P|].
    change (inject_Z 1) with 1%Q. lra.
Qed.

Lemma fraction_first (n : Z) :
  clamp n 0 (total features - 1) = 0 -> fraction features n = 0%Q.
Proof.
  intros C. unfold fraction. rewrite C. destruct (1 <? total features); [|reflexivity].
  unfold Double.div. rewrite (DoubleFacts.rnd_comp _ 0%Q) by (unfold Qdiv; ring).
  reflexivity.
Qed.


Lemma moved_bounds (m : Metrics) (n : Z) :
  nonDegenerate m ->
  (0 <= Double.rnd (fraction features n * inject_Z (endY m - startY m)))%Q
  /\ (Double.rnd (fraction features n * inject_Z (endY m - startY m))
      <= inject_Z (endY m - startY m))%Q.
Proof.
  intros D. destruct (range_length m D) as [D1 _].
  destruct (fraction_bounds n) as [F0 F1].
  assert (Pd : (0 <= inject_Z (endY m - startY m))%Q)
    by (change 0%Q with (inject_Z 0); rewrite <- Zle_Qle; lia).
  split.
  - apply DoubleFacts.rnd_nonneg. apply Qmult_le_0_compat; assumption.
  - apply Qle_trans with (Double.rnd (inject_Z (endY m - startY m))).
    + apply DoubleFacts.rnd_mono.
      apply Qle_trans with (1 * inject_Z (endY m - startY m))%Q;
        [apply Qmult_le_compat_r; assumption | rewrite Qmult_1_l; apply Qle_refl].
    + rewrite rnd_small
        by (pose proof (px_bound (endY m)); pose proof (px_bound (startY m)); lia).
      apply Qle_refl.
Qed.

(** The target never leaves the sticky range. *)
Lemma target_in_range (m : Metrics) (n : Z) :
  nonDegenerate m ->
  (inject_Z (startY m) <= target features m n)%Q
  /\ (target features m n <= inject_Z (endY m))%Q.
Proof.
  intros D. rewrite target_fraction. destruct (moved_bounds m n D) as [X0 X1].
  destruct (range_length m D) as [_ DE].
  split.
  - apply Qle_trans with (Double.rnd (inject_Z (startY m)));
      [rewrite rnd_px; apply Qle_refl | apply DoubleFacts.rnd_mono; lra].
  - apply Qle_trans with (Double.rnd (inject_Z (endY m)));
      [apply DoubleFacts.rnd_mono; lra | rewrite rnd_px; apply Qle_refl].
Qed.

Lemma target_first (m : Metrics) (n : Z) :
  clamp n 0 (total features - 1) = 0 ->
  (target features m n == inject_Z (startY m))%Q.
Proof.
  intros C. rewrite target_fraction, (fraction_first n C).
  rewrite (DoubleFacts.rnd_comp (0 * _) 0%Q) by ring. rewrite DoubleFacts.rnd_0.
  rewrite (DoubleFacts.rnd_comp (_ + 0) (inject_Z (startY m))) by ring.
  apply rnd_px.
Qed.


Lemma target_arith (u h d S s r t x T : Q) :
  (0 < u)%Q -> (0 < h)%Q -> (0 <= d)%Q ->
  (r - (u * 1 + h) <= t)%Q -> (t <= r + (u * 1 + h))%Q ->
  (t * d - (u * d + h) <= x)%Q -> (x <= t * d + (u * d + h))%Q ->
  (s + x - (u * (S + d) + h) <= T)%Q -> (T <= s + x + (u * (S + d) + h))%Q ->
  (s + r * d - (u * (S + 3 * d) + h * (2 + d)) <= T)%Q
  /\ (T <= s + r * d + (u * (S + 3 * d) + h * (2 + d)))%Q.
Proof.
  intros Pu Ph Pd T0 T1 X0 X1 Y0 Y1.
  assert (A1 : ((t - r) * d <= (u + h) * d)%Q) by nra.
  assert (A0 : (- ((u + h) * d) <= (t - r) * d)%Q) by nra.
  split; nra.
Qed.

Lemma targetError_small (m : Metrics) :
  nonDegenerate m -> (0 <= targetError m)%Q /\ (targetError m <= 1 # 131072)%Q.
Proof.
  intros D. destruct (range_length m D) as [D1 _].
  pose proof (px_bound (startY m)) as Bs. pose proof (px_bound (endY m)) as Be.
  destruct eta_small as [H0 H1]. pose proof eps_value as E.
  unfold targetError. set (u := Double.eps) in *. set (h := Double.eta) in *.
  assert (S0 : (0 <= inject_Z (Z.abs (startY m)))%Q)
    by (change 0%Q with (inject_Z 0); rewrite <- Zle_Qle; lia).
  assert (S1 : (inject_Z (Z.abs (startY m)) <= 8589934592)%Q)
    by (change 8589934592%Q with (inject_Z 8589934592); rewrite <- Zle_Qle; lia).
  assert (L0 : (1 <= inject_Z (endY m - startY m))%Q)
    by (change 1%Q with (inject_Z 1); rewrite <- Zle_Qle; lia).
  assert (L1 : (inject_Z (endY m - startY m) <= 17179869184)%Q)
    by (change 17179869184%Q with (inject_Z 17179869184); rewrite <- Zle_Qle; lia).
  set (S := inject_Z (Z.abs (startY m))) in *.
  set (d := inject_Z (endY m - startY m)) in *.
  assert (A : (u * (S + 3 * d) <= (1 # 9007199254740992) * (8589934592 + 3 * 17179869184))%Q)
    by nra.
  assert (B : (h * (2 + d) <= (1 # 18446744073709551616) * (2 + 17179869184))%Q)
    by nra.
  assert (C : ((1 # 9007199254740992) * (8589934592 + 3 * 17179869184)
               + (1 # 18446744073709551616) * (2 + 17179869184) <= 1 # 131072)%Q)
    by (unfold Qle; cbn; lia).
  split; [nra | lra].
Qed.

(** The issued target is the exact offset of the step up to rounding. *)
Lemma target_accuracy (m : Metrics) (i : Z) :
  validIndex features i -> nonDegenerate m ->
  (stepOffset features m i - targetError m <= target features m i)%Q
  /\ (target features m i <= stepOffset features m i + targetError m)%Q.
Proof.
  intros V D. destruct (targetError_small m D) as [E0 _].
  destruct (range_length m D) as [D1 DE].
  assert (C : clamp i 0 (total features - 1) = i) by (unfold validIndex, clamp in *; lia).
  destruct (Z.eqb_spec (total features) 1) as [T1|T1].
  - assert (i = 0) by (unfold validIndex in V; lia). subst i.
    rewrite (target_first m 0) by exact C.
    unfold stepOffset. rewrite T1. cbn [Z.eqb Pos.eqb]. split; lra.
  - assert (T : 1 < total features) by (unfold validIndex in V; lia).
    rewrite target_fraction. unfold stepOffset.
    destruct (Z.eqb_spec (total features) 1); [contradiction|].
    rewrite <- DE.
    set (d := inject_Z (endY m - startY m)) in *.
    set (r := (inject_Z i / inject_Z (total features - 1))%Q).
    assert (Pn : (0 < inject_Z (total features - 1))%Q)
      by (change 0%Q with (inject_Z 0); rewrite <- Zlt_Qlt; lia).
    assert (Pd : (1 <= d)%Q)
      by (unfold d; change 1%Q with (inject_Z 1); rewrite <- Zle_Qle; exact D1).
    assert (R0 : (0 <= r)%Q).
    { unfold r. apply Qle_shift_div_l; [exact Pn|]. rewrite Qmult_0_l.
      change 0%Q with (inject_Z 0). rewrite <- Zle_Qle. unfold validIndex in V. lia. }
    assert (R1 : (r <= 1)%Q).
    { unfold r. apply Qle_shift_div_r; [exact Pn|]. rewrite Qmult_1_l.
      rewrite <- Zle_Qle. unfold validIndex in V. lia. }
    assert (Ft : fraction features i = Double.rnd r).
    { unfold fraction. rewrite C. destruct (Z.ltb_spec 1 (total features)); [|lia].
      reflexivity. }
    destruct (fraction_bounds i) as [F0 F1]. destruct (moved_bounds m i D) as [X0 X1].
    fold d in X0, X1. rewrite Ft in *.
    destruct (rnd_within r 1) as [Rt0 Rt1]; [rewrite Qabs_pos; assumption|].
    set (t := Double.rnd r) in *.
    destruct (rnd_within (t * d) d) as [Rx0 Rx1].
    { rewrite Qabs_pos by (apply Qmult_le_0_compat; lra).
      apply Qle_trans with (1 * d)%Q; [apply Qmult_le_compat_r; lra | lra]. }
    set (x := Double.rnd (t * d)) in *.
    pose proof (px_bound (startY m)) as Bs.
    set (S := inject_Z (Z.abs (startY m))).
    assert (As : (- S <= inject_Z (startY m))%Q /\ (inject_Z (startY m) <= S)%Q).
    { unfold S. rewrite <- inject_Z_opp, <- !Zle_Qle. lia. }
    destruct (rnd_within (inject_Z (startY m) + x) (S + d)) as [Ry0 Ry1].
    { apply Qabs_Qle_condition. split; lra. }
    unfold targetError. fold d S.
    apply (target_arith Double.eps Double.eta d S (inject_Z (startY m)) r t x);
      try assumption; try apply DoubleFacts.pow2_pos; lra.
Qed.

Lemma roundtrip_arith (u h d n i S E X r v : Q) :
  (0 < u)%Q -> (0 < h)%Q -> (1 <= d)%Q -> (1 <= n)%Q -> (0 <= S)%Q ->
  (E == u * (S + 3 * d) + h * (2 + d))%Q ->
  (4 * n * (S + 3 * d) * u <= d)%Q ->
  (r * n == i)%Q -> (X * d == v)%Q ->
  (r * d - E <= v)%Q -> (v <= r * d + E)%Q ->
  (i - ((1 # 4) + 3 * h * n) <= X * n)%Q /\ (X * n <= i + ((1 # 4) + 3 * h * n))%Q.
Proof.
  intros Pu Ph Pd Pn PS HE K Hr HX V0 V1.
  assert (G : (0 <= h * n * (d - 1))%Q)
    by (apply Qmult_le_0_compat; [apply Qmult_le_0_compat|]; lra).
  assert (En : (E * n <= ((1 # 4) + 3 * h * n) * d)%Q) by (rewrite HE; lra).
  assert (H1 : (X * d * n == v * n)%Q) by (rewrite HX; reflexivity).
  assert (H2 : (r * n * d == i * d)%Q) by (rewrite Hr; reflexivity).
  assert (H3 : ((v - r * d) * n <= E * n)%Q) by (apply Qmult_le_compat_r; lra).
  assert (H4 : ((r * d - v) * n <= E * n)%Q) by (apply Qmult_le_compat_r; lra).
  assert (B1 : ((X * n - i) * d <= ((1 # 4) + 3 * h * n) * d)%Q) by lra.
  assert (B0 : ((i - X * n) * d <= ((1 # 4) + 3 * h * n) * d)%Q) by lra.
  apply Qmult_le_r in B1; [|lra]. apply Qmult_le_r in B0; [|lra].
  split; lra.
Qed.

(** The forward map takes the issued target back to its index. *)
Lemma nextIndex_target (m : Metrics) (i : Z) :
  validIndex features i -> nonDegenerate m -> wideEnough features m ->
  nextIndex features m (target features m i) = i.
Proof.
  intros V D K. pose proof D as D'. unfold nonDegenerate in D'.
  destruct (range_length m D) as [D1 DE].
  assert (C : clamp i 0 (total features - 1) = i) by (unfold validIndex, clamp in *; lia).
  destruct (Z.eqb_spec (total features) 1) as [T1|T1].
  - assert (i = 0) by (unfold validIndex in V; lia). subst i.
    apply nextIndex_start; [exact D' | apply target_first, C].
  - assert (T : 1 < total features) by (unfold validIndex in V; lia).
    destruct (target_in_range m i D) as [L U].
    destruct (target_accuracy m i V D) as [A0 A1].
    destruct (scaled_accuracy m (target features m i) L U D' ltac:(lia)) as [S0 S1].
    rewrite nextIndex_scaled.
    set (y := target features m i) in *. set (P := scaled features m y) in *.
    unfold stepOffset in A0, A1.
    destruct (Z.eqb_spec (total features) 1) as [|_]; [contradiction|].
    rewrite <- DE in A0, A1.
    set (d := inject_Z (endY m - startY m)) in *.
    set (n := inject_Z (total features - 1)) in *.
    set (X := ((y - inject_Z (startY m)) / d)%Q) in *.
    set (r := (inject_Z i / n)%Q) in *.
    assert (Pd : (1 <= d)%Q)
      by (unfold d; change 1%Q with (inject_Z 1); rewrite <- Zle_Qle; exact D1).
    assert (Pn : (1 <= n)%Q)
      by (unfold n; change 1%Q with (inject_Z 1); rewrite <- Zle_Qle; lia).
    assert (Pn1 : (n <= 4294967296)%Q).
    { unfold n. change 4294967296%Q with (inject_Z 4294967296). rewrite <- Zle_Qle.
      pose proof array_bound. lia. }
    assert (PS : (0 <= inject_Z (Z.abs (startY m)))%Q)
      by (change 0%Q with (inject_Z 0); rewrite <- Zle_Qle; lia).
    assert (KQ : (4 * n * (inject_Z (Z.abs (startY m)) + 3 * d) * Double.eps <= d)%Q).
    { rewrite eps_value. unfold wideEnough in K. rewrite Zle_Qle in K.
      rewrite !inject_Z_mult, inject_Z_plus, inject_Z_mult in K.
      fold d n in K. change (inject_Z 3) with 3%Q in K.
      change (inject_Z 2251799813685248) with 2251799813685248%Q in K. lra. }
    destruct eta_small as [H0 H1].
    destruct (roundtrip_arith Double.eps Double.eta d n (inject_Z i)
                (inject_Z (Z.abs (startY m))) (targetError m) X r
                (y - inject_Z (startY m))) as [F0 F1];
      try assumption; try apply DoubleFacts.pow2_pos.
    + reflexivity.
    + unfold r. field. intros Z0. lra.
    + unfold X. field. intros Z0. lra.
    + lra.
    + lra.
    + assert (Hn : (3 * Double.eta * n <= 3 * (1 # 18446744073709551616) * 4294967296)%Q)
        by nra.
      assert (Cn : (3 * (1 # 18446744073709551616) * 4294967296 + slack < 1 # 4)%Q)
        by reflexivity.
      apply Round.Math_round_down; lra.
Qed.

End FrameArithmetic.

(** ** Concrete runs *)

Example measured5_metrics :
  JS.px_val (startY (metricsRef measured5)) = 0
  /\ JS.px_val (endY (metricsRef measured5)) = 3200
  /\ JS.px_val (height (metricsRef measured5)) = 4000
  /\ JS.px_val (viewport (metricsRef measured5)) = 800.
Proof. repeat split; reflexivity. Qed.

Example scroll_to_top :
  active (state (scrollEvent FEATURES 3 (page5 0) (mkShowcase 3 (metricsRef measured5) false))) = 0.
Proof. vm_compute. reflexivity. Qed.

Example scroll_to_1200 :
  active (state (scrollEvent FEATURES 0 (page5 1200) measured5)) = 2.
Proof. vm_compute. reflexivity. Qed.

Example scroll_to_1199 :
  active (state (scrollEvent FEATURES 0 (page5 1199) measured5)) = 1.
Proof. vm_compute. reflexivity. Qed.

Example scroll_past_end :
  active (state (scrollEvent FEATURES 0 (page5 3201) measured5)) = 0.
Proof. vm_compute. reflexivity. Qed.

Example click_item_3 :
  scrollToIndex FEATURES 3 measured5
  = (tt, mkShowcase 3 (metricsRef measured5) false,
     [SetActive 3; ScrollTo 2400 Smooth]).
Proof. vm_compute. reflexivity. Qed.

(** Twelve features, the page at 6000 of 8800: the exact value of
    [progress * 11] is 7.5, the computed one is 7.499999999999999, and the
    index is 7. *)
Example scroll_to_6000_of_8800 :
  scaled TWELVE (metricsRef measured12) 6000 = (8444249301319679 # 1125899906842624)%Q
  /\ active (state (scrollEvent TWELVE 0 (page12 6000) measured12)) = 7.
Proof. split; vm_compute; reflexivity. Qed.

(** Four features over 0..100: the click on item 1 asks for
    33.33333333333333, not 100/3. *)
Example click_item_1_of_4 :
  calls (scrollToIndex FOUR 1 measured4)
  = [SetActive 1; ScrollTo (2345624805922133 # 70368744177664) Smooth].
Proof. vm_compute. reflexivity. Qed.

(** The operations of [Double] give what the hardware gives. *)
Module Hardware.

Import PrimFloat.

Example progress_6000_of_8800 :
  Double.of_float (6000 / 8800 * 11)%float
  = Some (Double.mul (Double.div 6000 8800) 11).
Proof. vm_compute. reflexivity. Qed.

Example target_1_of_4 :
  Double.of_float (0 + 1 / 3 * (100 - 0))%float
  = Some (Double.add 0 (Double.mul (Double.div 1 3) (Double.sub 100 0))).
Proof. vm_compute. reflexivity. Qed.

Example target_1_of_8388609 :
  Double.of_float (2147483646 + 1 / 8388608 * (2147483647 - 2147483646))%float
  = Some (Double.add 2147483646
            (Double.mul (Double.div 1 8388608) (Double.sub 2147483647 2147483646)))
  /\ Double.of_float (2147483646 + 1 / 8388608 * (2147483647 - 2147483646))%float
     = Some 2147483646%Q.
Proof. split; vm_compute; reflexivity. Qed.

Example fractional_offset :
  Double.of_float ((0x1.34a3d70a3d70ap+10 - 17) / (3217 - 17) * 4)%float
  = match Double.of_float 0x1.34a3d70a3d70ap+10%float with
    | Some y => Some (Double.mul (Double.div (Double.sub y 17) (Double.sub 3217 17)) 4)
    | None => None
    end.
Proof. vm_compute. reflexivity. Qed.

Example subnormal_quotient :
  Double.of_float (0x1p-1070 / 3)%float
  = Some (Double.div (Double.pow2 (-1070)) 3).
Proof. vm_compute. reflexivity. Qed.

Example tie_to_even :
  Double.of_float (9007199254740992 + 1)%float = Some (Double.add 9007199254740992 1)
  /\ Double.of_float (9007199254740994 + 1)%float = Some (Double.add 9007199254740994 1).
Proof. split; vm_compute; reflexivity. Qed.

End Hardware.

(** ** Properties of the scroll handler *)

Section ScrollHandler.

Variable features : JS.array Feature.

(** With the sticky range entered, a handled scroll event whose closure is
    up to date leaves the computed index in [active]. *)
Lemma scrollEvent_in_range (dom : Dom) (s : Showcase) (el : Element) :
  sectionRef dom = Some el -> ticking s = false ->
  inStickyRange (metricsRef s) (scrollY (window dom)) = true ->
  active (state (scrollEvent features (active s) dom s))
  = nextIndex features (metricsRef s) (scrollY (window dom)).
Proof.
  intros Hm Ht Hin. rewrite scrollEvent_state, Hm, Ht, onScrollFrame_state.
  cbn [active metricsRef]. rewrite Hin.
  destruct (Z.eqb_spec (nextIndex features (metricsRef s) (scrollY (window dom)))
              (active s)) as [E|E]; cbn [negb]; congruence.
Qed.

(** The same for any value captured by the closure: the computed index is
    stored unless it is the captured one. *)
Lemma scrollEvent_in_range_seen (seen : Z) (dom : Dom) (s : Showcase) (el : Element) :
  sectionRef dom = Some el -> ticking s = false ->
  inStickyRange (metricsRef s) (scrollY (window dom)) = true ->
  active (state (scrollEvent features seen dom s))
  = if nextIndex features (metricsRef s) (scrollY (window dom)) =? seen
    then active s
    else nextIndex features (metricsRef s) (scrollY (window dom)).
Proof.
  intros Hm Ht Hin. rewrite scrollEvent_state, Hm, Ht, onScrollFrame_state.
  cbn [active metricsRef]. rewrite Hin.
  destruct (_ =? _); reflexivity.
Qed.

(** Whatever the closure saw, the frame callback stores either nothing or
    the computed index. *)
Lemma onScrollFrame_active (seen : Z) (dom : Dom) (s : Showcase) :
  active (state (onScrollFrame features seen dom s)) = active s
  \/ (inStickyRange (metricsRef s) (scrollY (window dom)) = true
      /\ active (state (onScrollFrame features seen dom s))
         = nextIndex features (metricsRef s) (scrollY (window dom))).
Proof.
  rewrite onScrollFrame_state. cbn [active].
  destruct (inStickyRange _ _); [|left; reflexivity].
  destruct (negb _); [right; split; reflexivity | left; reflexivity].
Qed.

Lemma nextIndex_valid (m : Metrics) (y : Q) :
  1 <= total features -> inStickyRange m y = true ->
  validIndex features (nextIndex features m y).
Proof.
  intros Ht Hin. apply inStickyRange_true in Hin. destruct Hin as (Hs & He & Hd).
  apply nextIndex_in_range; assumption.
Qed.

(** C1, as the code has it.  For every scroll offset [y] with
    [startY <= y <= endY] and [endY > startY], the scroll handler (mounted
    section, no frame pending) computes
    [next = Math.round(((y - startY) / (endY - startY)) * (total - 1))] in
    binary64 arithmetic, each operation rounded, and stores it in [active]
    unless it equals the [active] its closure captured, in which case
    [active] is left alone; with an up-to-date closure [active] is [next].
    [next] is the index the exact formula gives whenever the exact value of
    [progress * (total - 1)] is at least 2^-19 away from the ties.  With
    five features, [y = startY] gives [next = 0] and [y = endY] gives
    [next = 4]. *)
Theorem onScroll_sets_index (seen : Z) (dom : Dom) (s : Showcase) (el : Element) :
  sectionRef dom = Some el -> ticking s = false ->
  let m := metricsRef s in
  let y := scrollY (window dom) in
  (inject_Z (startY m) <= y)%Q -> (y <= inject_Z (endY m))%Q ->
  (inject_Z (startY m) < inject_Z (endY m))%Q ->
  let next :=
    JS.Math_round
      (Double.mul
         (Double.div (Double.sub y (startY m)) (Double.sub (endY m) (startY m)))
         (inject_Z (total features - 1))) in
  let exact :=
    ((y - inject_Z (startY m)) / (inject_Z (endY m) - inject_Z (startY m))
     * inject_Z (total features - 1))%Q in
  let s' := state (scrollEvent features seen dom s) in
  (next <> seen -> active s' = next)
  /\ (next = seen -> active s' = active s)
  /\ (seen = active s -> active s' = next)
  /\ (1 <= total features ->
      forall k : Z,
        (inject_Z k - (1 # 2) + (1 # 524288) <= exact)%Q ->
        (exact < inject_Z k + (1 # 2) - (1 # 524288))%Q ->
        next = k /\ JS.Math_round exact = k)
  /\ (total features = 5 -> (y == inject_Z (startY m))%Q -> next = 0)
  /\ (total features = 5 -> (y == inject_Z (endY m))%Q -> next = 4).
Proof.
  intros Hm Ht m y Hs He Hd next exact s'.
  assert (Hin : inStickyRange m y = true)
    by (apply inStickyRange_true; auto).
  assert (E : active s' = if next =? seen then active s else next)
    by (apply scrollEvent_in_range_seen with el; assumption).
  change next with (nextIndex features m y) in *.
  split; [|split; [|split; [|split; [|split]]]].
  - intros N. rewrite E. destruct (Z.eqb_spec (nextIndex features m y) seen);
      [contradiction | reflexivity].
  - intros N. rewrite E, N, Z.eqb_refl. reflexivity.
  - intros N. rewrite E. destruct (Z.eqb_spec (nextIndex features m y) seen);
      [congruence | reflexivity].
  - intros T k Lo Hi. change (JS.Math_round exact) with (exactIndex features m y).
    apply nextIndex_exact; assumption.
  - intros H5 Hy. apply nextIndex_start; assumption.
  - intros H5 Hy. rewrite (nextIndex_end features m y Hd Hy), H5. reflexivity.
Qed.


(** Outside the sticky range the frame callback only clears [ticking]. *)
Lemma onScrollFrame_outside (seen : Z) (dom : Dom) (s : Showcase) :
  inStickyRange (metricsRef s) (scrollY (window dom)) = false ->
  state (onScrollFrame features seen dom s)
  = mkShowcase (active s) (metricsRef s) false.
Proof. intros H. rewrite onScrollFrame_state, H. reflexivity. Qed.

Lemma outside_sticky_range (m : Metrics) (y : Q) :
  (y < inject_Z (startY m))%Q \/ (inject_Z (endY m) < y)%Q
  \/ (inject_Z (endY m) <= inject_Z (startY m))%Q ->
  inStickyRange m y = false.
Proof.
  intros H. apply not_true_iff_false. rewrite inStickyRange_true.
  intros (Hs & He & Hd). destruct H as [H|[H|H]]; lra.
Qed.

(** C7.  When the offset is outside [[startY, endY]], or the range is
    degenerate ([endY <= startY]), or the section is not mounted, a handled
    scroll event leaves [active] and the cached metrics as they were. *)
Theorem onScroll_frame_rule (seen : Z) (dom : Dom) (s : Showcase) :
  let m := metricsRef s in
  let y := scrollY (window dom) in
  sectionRef dom = None
  \/ (y < inject_Z (startY m))%Q \/ (inject_Z (endY m) < y)%Q
  \/ (inject_Z (endY m) <= inject_Z (startY m))%Q ->
  let s' := state (scrollEvent features seen dom s) in
  active s' = active s /\ metricsRef s' = metricsRef s.
Proof.
  intros m y H s'. subst s'. rewrite scrollEvent_state.
  destruct H as [H|H].
  - rewrite H. split; reflexivity.
  - destruct (sectionRef dom); [|split; reflexivity].
    destruct (ticking s); [split; reflexivity|].
    rewrite onScrollFrame_outside
      by (cbn [metricsRef]; apply outside_sticky_range; exact H).
    split; reflexivity.
Qed.

End ScrollHandler.

(** ** Properties of the navigation *)

Section Navigation.

Variable features : JS.array Feature.

(** C2.  For every integer [nextIndex], in range or not,
    [scrollToIndex(nextIndex)] leaves [active = clamp(nextIndex, 0, total-1)];
    [setActive] is the first call made, whatever the metrics, and only a
    scroll request can follow it. *)
Theorem navigateTo_clamps (n : Z) (s : Showcase) :
  let r := scrollToIndex features n s in
  let i := clamp n 0 (total features - 1) in
  active (state r) = i
  /\ exists rest : list Call,
       calls r = SetActive i :: rest
       /\ (rest = [] \/ exists top : Q, rest = [ScrollTo top Smooth]).
Proof.
  intros r i. subst r i. rewrite scrollToIndex_state, scrollToIndex_calls.
  split; [reflexivity|].
  destruct (Qle_bool _ _).
  - exists []. split; [reflexivity | left; reflexivity].
  - eexists. split; [reflexivity | right; eexists; reflexivity].
Qed.

Lemma same_cells (s : Showcase) (i : Z) :
  i = active s -> mkShowcase i (metricsRef s) (ticking s) = s.
Proof. intros ->. destruct s; reflexivity. Qed.

(** Navigating to the index that is already active: the cells stay, and
    the scroll request is still made when the range is not degenerate. *)
Lemma navigate_to_current (n : Z) (s : Showcase) :
  clamp n 0 (total features - 1) = active s ->
  state (scrollToIndex features n s) = s
  /\ ((endY (metricsRef s) <= startY (metricsRef s))%Q ->
      calls (scrollToIndex features n s) = [SetActive (active s)])
  /\ (nonDegenerate (metricsRef s) ->
      calls (scrollToIndex features n s)
      = [SetActive (active s); ScrollTo (target features (metricsRef s) n) Smooth]).
Proof.
  intros E. rewrite scrollToIndex_state, scrollToIndex_calls, E.
  split; [apply same_cells; reflexivity|]. split; intros H.
  - apply Qle_bool_iff in H. rewrite H. reflexivity.
  - unfold nonDegenerate in H.
    destruct (Qle_bool _ _) eqn:B; [|reflexivity].
    apply Qle_bool_iff in B. lra.
Qed.

Lemma navigate_to_current_noop (n : Z) (s : Showcase) (w : Window) :
  clamp n 0 (total features - 1) = active s ->
  (endY (metricsRef s) <= startY (metricsRef s))%Q ->
  noop (scrollToIndex features n) s w.
Proof.
  intros E D. destruct (navigate_to_current n s E) as (St & Cd & _).
  split; [exact St|]. rewrite (Cd D).
  constructor; [|constructor]. cbn. intros H. apply H. reflexivity.
Qed.



(** The step offsets lie in the sticky range, and the forward map takes
    each back to its index. *)
Lemma stepOffset_in_range (m : Metrics) (i : Z) :
  validIndex features i -> nonDegenerate m ->
  (startY m <= stepOffset features m i)%Q /\ (stepOffset features m i <= endY m)%Q.
Proof.
  unfold validIndex, nonDegenerate, stepOffset. intros V D.
  destruct (Z.eqb_spec (total features) 1) as [E|E].
  - split; lra.
  - assert (P : (0 < inject_Z (total features - 1))%Q).
    { change 0%Q with (inject_Z 0). rewrite <- Zlt_Qlt. lia. }
    assert (I0 : (0 <= inject_Z i)%Q).
    { change 0%Q with (inject_Z 0). rewrite <- Zle_Qle. lia. }
    assert (I1 : (inject_Z i <= inject_Z (total features - 1))%Q).
    { rewrite <- Zle_Qle. lia. }
    assert (T0 : (0 <= inject_Z i / inject_Z (total features - 1))%Q).
    { apply Qle_shift_div_l; [exact P | lra]. }
    assert (T1 : (inject_Z i / inject_Z (total features - 1) <= 1)%Q).
    { apply Qle_shift_div_r; [exact P | lra]. }
    split; nra.
Qed.

(** With at most 2^17 + 1 features every non-degenerate range is wide
    enough for the rounding analysis, wherever the section is on the page. *)
Lemma wideEnough_few (m : Metrics) :
  nonDegenerate m -> total features <= 131073 -> wideEnough features m.
Proof.
  intros D T. destruct (range_length m D) as [D1 _].
  pose proof (px_bound (startY m)) as Bs.
  pose proof (array_bound features) as [T0 _].
  unfold wideEnough.
  destruct (Z.eq_dec (total features) 0) as [E|E]; [rewrite E; lia|].
  assert (A : (total features - 1) * Z.abs (startY m) <= 131072 * 8589934592)
    by (apply Z.mul_le_mono_nonneg; lia).
  assert (B : (total features - 1) * (3 * (endY m - startY m))
              <= 131072 * (3 * (endY m - startY m)))
    by (apply Z.mul_le_mono_nonneg_r; lia).
  rewrite Z.mul_add_distr_l. lia.
Qed.

End Navigation.

Section RoundTrip.

Variable features : JS.array Feature.

(** C3, as the code has it.  For a valid index [i] and non-degenerate
    metrics, [scrollToIndex(i)] requests a smooth scroll to the binary64
    value of [startY + (i / (total-1)) * (endY - startY)] (the quotient
    read as 0 when [total = 1]), each operation rounded.  That offset lies
    in [[startY, endY]] and within 2^-17 of the exact offset of the step.
    When the list has at most 131073 features (or, more generally, the
    range is wide enough for its number of features), a scroll event
    handled at exactly the requested offset gives [active = i]: right after
    the navigation whatever the handler's closure saw, and from any state
    with these metrics whose closure is up to date. *)
Theorem navigate_scroll_roundtrip (i : Z) (s : Showcase) :
  validIndex features i -> nonDegenerate (metricsRef s) ->
  let m := metricsRef s in
  let r := scrollToIndex features i s in
  exists top : Q,
    calls r = [SetActive i; ScrollTo top Smooth]
    /\ top = Double.add (startY m)
               (Double.mul
                  (if 1 <? total features
                   then Double.div (inject_Z i) (inject_Z (total features - 1))
                   else 0%Q)
                  (Double.sub (endY m) (startY m)))
    /\ (stepOffset features m i - (1 # 131072) <= top)%Q
    /\ (top <= stepOffset features m i + (1 # 131072))%Q
    /\ (inject_Z (startY m) <= top)%Q /\ (top <= inject_Z (endY m))%Q
    /\ (total features <= 131073 \/ wideEnough features m ->
        (forall (seen : Z) (dom : Dom),
            (scrollY (window dom) == top)%Q ->
            active (state (scrollEvent features seen dom (state r))) = i)
        /\ (forall (dom : Dom) (s2 : Showcase) (el : Element),
               sectionRef dom = Some el -> ticking s2 = false ->
               metricsRef s2 = m -> (scrollY (window dom) == top)%Q ->
               active (state (scrollEvent features (active s2) dom s2)) = i)).
Proof.
  intros V D m r. subst m r. set (m := metricsRef s) in *.
  assert (C : clamp i 0 (total features - 1) = i) by (apply clamp_id; exact V).
  exists (target features m i).
  destruct (target_in_range features m i D) as [L U].
  destruct (target_accuracy features m i V D) as [A1 A2].
  destruct (targetError_small m D) as [_ E1].
  split; [|split; [|split; [|split; [|split; [|split]]]]].
  - rewrite scrollToIndex_calls, C. fold m. unfold nonDegenerate in D.
    destruct (Qle_bool (endY m) (startY m)) eqn:B; [|reflexivity].
    apply Qle_bool_iff in B. lra.
  - unfold target. rewrite C. reflexivity.
  - lra.
  - lra.
  - exact L.
  - exact U.
  - intros W.
    assert (K : wideEnough features m)
      by (destruct W as [W|W]; [apply wideEnough_few; assumption | exact W]).
    assert (In_ : forall y, (y == target features m i)%Q ->
                            inStickyRange m y = true).
    { intros y Hy. rewrite (inStickyRange_comp m _ _ Hy).
      apply inStickyRange_true. auto. }
    assert (Nx : forall y, (y == target features m i)%Q ->
                           nextIndex features m y = i).
    { intros y Hy. rewrite (nextIndex_comp features m _ _ Hy).
      apply nextIndex_target; assumption. }
    split.
    + intros seen dom Hy. rewrite scrollToIndex_state, C.
      rewrite scrollEvent_state. cbn [ticking active metricsRef].
      destruct (sectionRef dom); [|reflexivity].
      destruct (ticking s); [reflexivity|].
      rewrite onScrollFrame_state. cbn [active metricsRef].
      fold m. rewrite (In_ _ Hy), (Nx _ Hy).
      destruct (negb _); reflexivity.
    + intros dom s2 el Hm Ht Hs2 Hy.
      rewrite (scrollEvent_in_range features dom s2 el Hm Ht);
        rewrite Hs2; auto.
Qed.

(** C6, as the code has it.  With a single feature and [active = 0]: a
    handled scroll event leaves [active = 0] at every offset, and every
    navigation call leaves the component's cells ([active], the metrics,
    [ticking]) as they were.  The call changes nothing at all when the range
    is degenerate; otherwise it still requests a smooth scroll to
    [startY]. *)
Theorem single_feature_navigation (s : Showcase) :
  total features = 1 -> active s = 0 ->
  (forall (seen : Z) (dom : Dom),
      active (state (scrollEvent features seen dom s)) = 0)
  /\ (forall n : Z, state (scrollToIndex features n s) = s)
  /\ (forall seen : Z,
         state (onPrev features seen s) = s /\ state (onNext features seen s) = s)
  /\ (forall (n : Z) (w : Window),
         (endY (metricsRef s) <= startY (metricsRef s))%Q ->
         noop (scrollToIndex features n) s w)
  /\ (forall n : Z,
         nonDegenerate (metricsRef s) ->
         exists top : Q,
           calls (scrollToIndex features n s) = [SetActive 0; ScrollTo top Smooth]
           /\ (top == startY (metricsRef s))%Q).
Proof.
  intros T1 A0.
  assert (C : forall n, clamp n 0 (total features - 1) = active s).
  { intros n. rewrite T1, A0. unfold clamp. lia. }
  split; [|split; [|split; [|split]]].
  - intros seen dom. rewrite scrollEvent_state.
    destruct (sectionRef dom); [|exact A0].
    destruct (ticking s); [exact A0|].
    rewrite onScrollFrame_state. cbn [active metricsRef].
    destruct (inStickyRange _ _) eqn:Hin; [|exact A0].
    destruct (negb _); [|exact A0].
    assert (V : validIndex features
                  (nextIndex features (metricsRef s) (scrollY (window dom))))
      by (apply nextIndex_valid; [lia | exact Hin]).
    unfold validIndex in V. lia.
  - intros n. apply navigate_to_current. apply C.
  - intros seen. split; apply navigate_to_current; apply C.
  - intros n w D. apply navigate_to_current_noop; [apply C | exact D].
  - intros n D. destruct (navigate_to_current features n s (C n)) as (_ & _ & Cn).
    rewrite (Cn D), A0. eexists. split; [reflexivity|].
    apply target_first. rewrite (C n). exact A0.
Qed.


End RoundTrip.

(** ** The index invariant *)

Section Invariant.

Variable features : JS.array Feature.

Lemma perform_comp {A : Type} (w : World) (m : M A) :
  comp (snd (perform w m)) = state (m (comp w)).
Proof.
  unfold perform, state. destruct (m (comp w)) as [[a s] c]. reflexivity.
Qed.

Lemma enqueue_comp (rw : bool * World) : comp (enqueue rw) = comp (snd rw).
Proof. destruct rw as [[|] w]; reflexivity. Qed.

Lemma computeMetrics_active (d : Dom) (s : Showcase) :
  active (state (computeMetrics d s)) = active s.
Proof. unfold computeMetrics. destruct (sectionRef d); reflexivity. Qed.

Lemma bind_state {A B : Type} (m : M A) (k : A -> M B) (s : Showcase) :
  state (bind m k s) = state (k (result (m s)) (state (m s))).
Proof.
  unfold bind, state, result. destruct (m s) as [[a s1] c1]. cbn [fst snd].
  destruct (k a s1) as [[b s2] c2]. reflexivity.
Qed.

Lemma onResize_active (d : Dom) (s : Showcase) :
  active (state (onResize d s)) = active s.
Proof.
  unfold onResize. rewrite bind_state.
  rewrite (proj1 (onScroll_frame_condition d _)). apply computeMetrics_active.
Qed.

Lemma scrollToIndex_valid (n : Z) (s : Showcase) :
  1 <= total features ->
  validIndex features (active (state (scrollToIndex features n s))).
Proof. intros T. rewrite scrollToIndex_state. apply clamp_valid. exact T. Qed.

Lemma onScrollFrame_valid (seen : Z) (d : Dom) (s : Showcase) :
  1 <= total features -> validIndex features (active s) ->
  validIndex features (active (state (onScrollFrame features seen d s))).
Proof.
  intros T V. destruct (onScrollFrame_active features seen d s) as [E|[Hin E]];
    rewrite E; [exact V | apply nextIndex_valid; assumption].
Qed.

Lemma scrollEvent_valid (seen : Z) (d : Dom) (s : Showcase) :
  1 <= total features -> validIndex features (active s) ->
  validIndex features (active (state (scrollEvent features seen d s))).
Proof.
  intros T V. rewrite scrollEvent_state.
  destruct (sectionRef d); [|exact V]. destruct (ticking s); [exact V|].
  apply onScrollFrame_valid; [exact T | exact V].
Qed.

Lemma effect_active (w : World) : active (comp (effect w)) = active (comp w).
Proof.
  unfold effect. rewrite enqueue_comp, perform_comp. cbn [comp dom].
  rewrite bind_state, (proj1 (onScroll_frame_condition _ _)).
  rewrite computeMetrics_active. reflexivity.
Qed.

Lemma runFrame_valid (w : World) :
  1 <= total features -> validIndex features (active (comp w)) ->
  validIndex features (active (comp (runFrame features w))).
Proof.
  intros T V. unfold runFrame. destruct (frames w) as [|[g seen] rest]; [exact V|].
  destruct (Nat.eqb g (gen w)); cbn [comp active]; rewrite perform_comp;
    cbn [comp dom]; apply onScrollFrame_valid; assumption.
Qed.

Lemma step_valid (w : World) (e : Event) :
  1 <= total features -> validIndex features (active (comp w)) ->
  validIndex features (active (comp (step features w e))).
Proof.
  intros T V. destruct e; cbn [step].
  - rewrite enqueue_comp, perform_comp. cbn [withDom comp].
    rewrite (proj1 (onScroll_frame_condition _ _)). exact V.
  - rewrite enqueue_comp, perform_comp. cbn [withDom comp].
    rewrite onResize_active. exact V.
  - apply runFrame_valid; assumption.
  - destruct (_ =? _); [exact V | rewrite effect_active; exact V].
  - rewrite perform_comp. apply scrollToIndex_valid. exact T.
  - rewrite perform_comp. apply scrollToIndex_valid. exact T.
  - rewrite perform_comp. apply scrollToIndex_valid. exact T.
Qed.

Lemma run_valid (es : list Event) (w : World) :
  1 <= total features -> validIndex features (active (comp w)) ->
  validIndex features (active (comp (run features w es))).
Proof.
  intros T. revert w. induction es as [|e es IH]; intros w V; cbn [run fold_left].
  - exact V.
  - apply IH. apply step_valid; assumption.
Qed.

(** A valid index is one at which the list has an entry. *)
Lemma validIndex_index (i : Z) :
  validIndex features i <-> JS.index features i <> None.
Proof.
  unfold validIndex, JS.index, total, JS.length.
  destruct (Z.ltb_spec i 0) as [N|N].
  - split; [lia | congruence].
  - rewrite nth_error_Some. lia.
Qed.

(** The first render ([active = 0]) throws on the empty list and only there. *)
Lemma first_render_nonempty :
  render features (active initial) <> None <-> JS.items features <> [].
Proof.
  destruct features as [[|f fs] ok].
  - split; intros H; exfalso; apply H; reflexivity.
  - split; intros _; discriminate.
Qed.

(** C4.  In a component that rendered (its first render did not throw, that
    is, the feature list is not empty), [active] is always a valid index,
    [0 <= active <= total - 1]: it starts at 0, each operation (a handled
    scroll event, [scrollToIndex], [onPrev], [onNext]) keeps it valid, and
    so it is in every state the mounted component reaches. *)
Theorem active_always_valid :
  render features (active initial) <> None ->
  validIndex features (active initial)
  /\ (forall s : Showcase,
         validIndex features (active s) ->
         (forall (seen : Z) (d : Dom),
             validIndex features (active (state (scrollEvent features seen d s))))
         /\ (forall n : Z,
                validIndex features (active (state (scrollToIndex features n s))))
         /\ (forall seen : Z,
                validIndex features (active (state (onPrev features seen s)))
                /\ validIndex features (active (state (onNext features seen s)))))
  /\ (forall (d : Dom) (es : list Event),
         validIndex features (active (comp (run features (mount d) es)))).
Proof.
  intros R. apply first_render_nonempty in R.
  pose proof (total_pos features R) as T.
  assert (V0 : validIndex features (active initial))
    by (unfold validIndex; cbn [active initial]; lia).
  split; [exact V0|]. split.
  - intros s V. split; [|split; [|split]].
    + intros seen d. apply scrollEvent_valid; assumption.
    + intros n. apply scrollToIndex_valid. exact T.
    + apply scrollToIndex_valid. exact T.
    + apply scrollToIndex_valid. exact T.
  - intros d es. apply run_valid; [exact T|].
    unfold mount. rewrite effect_active. exact V0.
Qed.

End Invariant.

(** ** Rendering *)

Section Rendering.

Lemma render_some_nonempty (features : JS.array Feature) (act : Z) (v : View) :
  render features act = Some v -> JS.items features <> [].
Proof.
  unfold render, JS.index. intros H E. rewrite E in H.
  destruct (act <? 0); [discriminate|].
  destruct (Z.to_nat act); discriminate.
Qed.

(** C9, as the code has it.  The section's height style is
    [max(1, total) * 100] vh: [total * 100] vh for every non-empty list, and
    so in everything the component renders, but 100 vh (not 0) for the
    empty list. *)
Theorem section_height (features : JS.array Feature) :
  (JS.items features <> [] -> sectionHeightVh features = total features * 100)
  /\ (JS.items features = [] -> sectionHeightVh features = 100)
  /\ (forall (act : Z) (v : View),
         render features act = Some v -> heightVh v = total features * 100).
Proof.
  assert (P : JS.items features <> [] ->
              sectionHeightVh features = total features * 100).
  { intros NE. pose proof (total_pos features NE).
    unfold sectionHeightVh, JS.Math_max. lia. }
  split; [exact P|]. split.
  - intros E. unfold sectionHeightVh, total, JS.length. rewrite E. reflexivity.
  - intros act v H. pose proof (render_some_nonempty features act v H) as NE.
    unfold render in H. destruct (JS.index features act); [|discriminate].
    injection H as <-. cbn [heightVh]. apply P. exact NE.
Qed.

(** C10.  With an empty feature list, [scrollToIndex] computes
    [max(0, min(-1, n)) = 0] and stores it for every [n]; 0 is not a valid
    index of the empty list, [features[active]] is undefined and rendering
    fails.  The first render ([active = 0]) succeeds exactly for the
    non-empty lists. *)
Theorem empty_list_navigation (n : Z) (s : Showcase) :
  let s' := state (scrollToIndex EMPTY n s) in
  JS.Math_max 0 (JS.Math_min (total EMPTY - 1) n) = 0
  /\ active s' = 0
  /\ ~ validIndex EMPTY (active s')
  /\ JS.index EMPTY (active s') = None
  /\ render EMPTY (active s') = None
  /\ (forall features : JS.array Feature,
         render features (active initial) <> None <-> JS.items features <> []).
Proof.
  intros s'. subst s'. rewrite scrollToIndex_state.
  assert (C : clamp n 0 (total EMPTY - 1) = 0)
    by (unfold clamp, total, JS.length; cbn; lia).
  cbn [active]. rewrite C.
  split; [rewrite clamp_code; exact C|]. split; [reflexivity|].
  split; [unfold validIndex, total, JS.length; cbn; lia|].
  split; [reflexivity|]. split; [reflexivity|].
  intros features. apply first_render_nonempty.
Qed.

End Rendering.

(** ** The theorems at concrete pages *)

Ltac decide_Q :=
  lazymatch goal with
  | |- (_ <= _)%Q => apply Qle_bool_iff; vm_compute; reflexivity
  | |- (_ < _)%Q => vm_compute; reflexivity
  | |- (_ == _)%Q => vm_compute; reflexivity
  | |- ~ (_ == _)%Q => vm_compute; discriminate
  end.

(** Five features, the page at 1000 of 3200: [progress * 4 = 1.25], and the
    handled scroll event selects index 1. *)
Lemma onScroll_sets_index_at_1000 :
  sectionRef (page5 1000) = Some section5
  /\ ticking measured5 = false
  /\ (inject_Z (startY (metricsRef measured5)) <= scrollY (window (page5 1000)))%Q
  /\ (scrollY (window (page5 1000)) <= inject_Z (endY (metricsRef measured5)))%Q
  /\ (inject_Z (startY (metricsRef measured5))
      < inject_Z (endY (metricsRef measured5)))%Q
  /\ active (state (scrollEvent FEATURES 0 (page5 1000) measured5)) = 1.
Proof.
  assert (H1 : sectionRef (page5 1000) = Some section5) by reflexivity.
  assert (H2 : ticking measured5 = false) by reflexivity.
  assert (H3 : (inject_Z (startY (metricsRef measured5))
                <= scrollY (window (page5 1000)))%Q) by decide_Q.
  assert (H4 : (scrollY (window (page5 1000))
                <= inject_Z (endY (metricsRef measured5)))%Q) by decide_Q.
  assert (H5 : (inject_Z (startY (metricsRef measured5))
                < inject_Z (endY (metricsRef measured5)))%Q) by decide_Q.
  repeat (split; [assumption|]).
  rewrite (proj1 (onScroll_sets_index FEATURES 0 (page5 1000) measured5
                    section5 H1 H2 H3 H4 H5));
    vm_compute; [reflexivity | discriminate].
Defined.

(** C1, as stated, fails in two ways.  Rounding: with twelve features, the
    sticky range 0..8800 and the page at 6000 the formula gives
    [round(7.5) = 8], while the handler, whose product is the double just
    below 7.5, selects 7.  Closure: on the default page at 100, the frame
    callback of a scroll event that was registered before a click on item 3
    runs after it; it computes 0, which is the [active] it closed over, and
    leaves [active] at 3. *)
Lemma onScroll_misses_formula :
  (sectionRef (page12 6000) = Some section12
   /\ ticking measured12 = false
   /\ inStickyRange (metricsRef measured12) (scrollY (window (page12 6000))) = true
   /\ exactIndex TWELVE (metricsRef measured12) (scrollY (window (page12 6000))) = 8
   /\ active (state (scrollEvent TWELVE (active measured12) (page12 6000) measured12))
      = 7)
  /\ (let w := run FEATURES settled5 [Scroll 100; ClickItem 3; Commit] in
      frames w = [(1%nat, 0); (2%nat, 3)]
      /\ inStickyRange (metricsRef (comp w)) (scrollY (window (dom w))) = true
      /\ exactIndex FEATURES (metricsRef (comp w)) (scrollY (window (dom w))) = 0
      /\ active (comp (step FEATURES w AnimationFrame)) = 3).
Proof. repeat split; vm_compute; reflexivity. Qed.



(** Five features, the page scrolled past the end of the sticky range:
    nothing changes. *)
Lemma onScroll_frame_rule_past_end :
  (inject_Z (endY (metricsRef measured5)) < scrollY (window (page5 3201)))%Q
  /\ active (state (scrollEvent FEATURES 0 (page5 3201) measured5)) = active measured5
  /\ metricsRef (state (scrollEvent FEATURES 0 (page5 3201) measured5))
     = metricsRef measured5.
Proof.
  assert (H : (inject_Z (endY (metricsRef measured5))
               < scrollY (window (page5 3201)))%Q) by decide_Q.
  split; [exact H|].
  apply (onScroll_frame_rule FEATURES 0 (page5 3201) measured5).
  right. right. left. exact H.
Defined.

(** Five features: the jump to item 3 aims at 2400, and a scroll event there
    selects 3. *)
Lemma navigate_scroll_roundtrip_item_3 :
  validIndex FEATURES 3
  /\ nonDegenerate (metricsRef measured5)
  /\ exists top : Q,
       calls (scrollToIndex FEATURES 3 measured5) = [SetActive 3; ScrollTo top Smooth]
       /\ (top == 2400)%Q
       /\ active (state (scrollEvent FEATURES 0 (mkDom (sectionRef (page5 0))
                                                   (mkWindow top long:800))
                           (state (scrollToIndex FEATURES 3 measured5)))) = 3.
Proof.
  assert (V : validIndex FEATURES 3) by (unfold validIndex; vm_compute; split; discriminate).
  assert (D : nonDegenerate (metricsRef measured5)) by (unfold nonDegenerate; decide_Q).
  assert (T : total FEATURES <= 131073) by (vm_compute; discriminate).
  split; [exact V|]. split; [exact D|].
  destruct (navigate_scroll_roundtrip FEATURES 3 measured5 V D)
    as (top & C & E & _ & _ & _ & _ & R).
  exists top. split; [exact C|]. split.
  - rewrite E. decide_Q.
  - apply (proj1 (R (or_introl T))). cbn [window scrollY]. reflexivity.
Defined.

Lemma total_MANY : total MANY = 8388609.
Proof.
  unfold total, JS.length, MANY. cbn [JS.items].
  rewrite repeat_length, Z2Nat.id by lia. reflexivity.
Qed.

(** C3, as stated, fails in two ways.  The requested offset is a double, not
    the exact offset of the step: with four features and the sticky range
    0..100, item 1 is at 100/3, and the request is for the double next to
    it.  And the way back can miss: with 8388609 features and the sticky
    range 2147483646..2147483647, item 1 is 2^-23 above the start of the
    range; the sum is rounded to the start, the request is for 2147483646,
    and a scroll event there selects 0. *)
Lemma scroll_target_is_rounded :
  (validIndex FOUR 1
   /\ nonDegenerate (metricsRef measured4)
   /\ calls (scrollToIndex FOUR 1 measured4)
      = [SetActive 1; ScrollTo (2345624805922133 # 70368744177664) Smooth]
   /\ (stepOffset FOUR (metricsRef measured4) 1 == 100 # 3)%Q
   /\ ~ (2345624805922133 # 70368744177664
         == stepOffset FOUR (metricsRef measured4) 1)%Q)
  /\ (validIndex MANY 1
      /\ nonDegenerate (metricsRef measuredFar)
      /\ calls (scrollToIndex MANY 1 measuredFar)
         = [SetActive 1; ScrollTo 2147483646 Smooth]
      /\ sectionRef (pageFar 2147483646) = Some sectionFar
      /\ ticking (state (scrollToIndex MANY 1 measuredFar)) = false
      /\ active (state (scrollToIndex MANY 1 measuredFar)) = 1
      /\ active (state (scrollEvent MANY 1 (pageFar 2147483646)
                          (state (scrollToIndex MANY 1 measuredFar)))) = 0).
Proof.
  split.
  - split; [unfold validIndex; vm_compute; split; discriminate|].
    split; [unfold nonDegenerate; decide_Q|].
    split; [vm_compute; reflexivity|].
    split; decide_Q.
  - split; [unfold validIndex; rewrite total_MANY; lia|].
    split; [unfold nonDegenerate; decide_Q|].
    split; [rewrite scrollToIndex_calls, total_MANY; vm_compute; reflexivity|].
    split; [reflexivity|].
    rewrite scrollEvent_state, onScrollFrame_state, scrollToIndex_state.
    unfold nextIndex. rewrite total_MANY.
    split; [reflexivity|]. split; vm_compute; reflexivity.
Qed.

(** The default list is not empty: the index stays valid along a run. *)
Lemma active_always_valid_default :
  render FEATURES (active initial) <> None
  /\ validIndex FEATURES
       (active (comp (run FEATURES (mount (page5 0))
                        [ClickItem 7; Commit; Scroll 900; AnimationFrame; ClickPrev]))).
Proof.
  assert (R : render FEATURES (active initial) <> None) by discriminate.
  split; [exact R|].
  apply (proj2 (proj2 (active_always_valid FEATURES R))).
Defined.

(** A run of the default page from its top: the click on item 3 stores 3 and
    asks for a scroll to 2400; the frame callbacks that run before the page
    has moved put 0 back; once the page is at 2400 the index is 3 again. *)
Example click_item_3_run :
  let w := mount (page5 0) in
  active (comp (run FEATURES w [ClickItem 3])) = 3
  /\ issued (run FEATURES w [ClickItem 3])
     = [RequestAnimationFrame; SetActive 3; ScrollTo 2400 Smooth]
  /\ active (comp (run FEATURES w
                     [ClickItem 3; Commit; AnimationFrame; AnimationFrame])) = 0
  /\ active (comp (run FEATURES w
                     [ClickItem 3; Commit; AnimationFrame; AnimationFrame;
                      Commit; Scroll 2400; AnimationFrame])) = 3.
Proof. repeat split; vm_compute; reflexivity. Qed.

(** One feature on the phone page: navigation keeps the cells. *)
Lemma single_feature_navigation_phone :
  total ONE = 1
  /\ active measured1 = 0
  /\ active (state (scrollEvent ONE 0 (page1 30) measured1)) = 0
  /\ state (scrollToIndex ONE 4 measured1) = measured1.
Proof.
  assert (T : total ONE = 1) by reflexivity.
  assert (A : active measured1 = 0) by reflexivity.
  split; [exact T|]. split; [exact A|].
  destruct (single_feature_navigation ONE measured1 T A) as (S1 & S2 & _).
  split; [apply S1 | apply S2].
Defined.

(** C6, as stated, fails on the phone page: with one feature, [onNext]
    requests a scroll from 30 to 0. *)
Lemma single_feature_next_scrolls :
  total ONE = 1
  /\ active measured1 = 0
  /\ calls (onNext ONE (active measured1) measured1)
     = [SetActive 0; ScrollTo 0 Smooth]
  /\ ~ noop (onNext ONE (active measured1)) measured1 (window (page1 30)).
Proof.
  split; [reflexivity|]. split; [reflexivity|].
  assert (C : calls (onNext ONE (active measured1) measured1)
              = [SetActive 0; ScrollTo 0 Smooth]) by (vm_compute; reflexivity).
  split; [exact C|].
  intros [_ F]. rewrite C in F. inversion F as [|c cs _ F1]; subst.
  inversion F1 as [|c cs G _]; subst.
  apply G. cbn [effective]. decide_Q.
Qed.



(** The height of the default list's section. *)
Lemma section_height_default :
  JS.items FEATURES <> [] /\ sectionHeightVh FEATURES = total FEATURES * 100.
Proof.
  assert (NE : JS.items FEATURES <> []) by discriminate.
  split; [exact NE|]. apply (proj1 (section_height FEATURES) NE).
Defined.

(** C9, as stated, fails on the empty list: the style says 100vh, not 0. *)
Lemma empty_list_height :
  sectionHeightVh EMPTY = 100 /\ sectionHeightVh EMPTY <> total EMPTY * 100.
Proof. split; [reflexivity | discriminate]. Qed.

(** ** Further properties of the handlers *)

Section HandlerFacts.

Variable features : JS.array Feature.

Lemma bind_calls {A B : Type} (m : M A) (k : A -> M B) (s : Showcase) :
  calls (bind m k s) = calls (m s) ++ calls (k (result (m s)) (state (m s))).
Proof.
  unfold bind, calls, state, result. destruct (m s) as [[a s1] c1]. cbn [fst snd].
  destruct (k a s1) as [[b s2] c2]. reflexivity.
Qed.

Lemma computeMetrics_mounted (d : Dom) (s : Showcase) (el : Element) :
  sectionRef d = Some el ->
  computeMetrics d s
  = (tt, mkShowcase (active s) (measureSection el (window d)) (ticking s), []).
Proof. intros H. unfold computeMetrics. rewrite H. reflexivity. Qed.

Lemma computeMetrics_unmounted (d : Dom) (s : Showcase) :
  sectionRef d = None -> computeMetrics d s = (tt, s, []).
Proof. intros H. unfold computeMetrics. rewrite H. reflexivity. Qed.

(** The measures are stored as they are read: the sums of three [long]s
    are far inside the range of the exactly represented offsets. *)
Lemma measureSection_values (el : Element) (w : Window) :
  JS.px_val (startY (measureSection el w)) = offsetTop el
  /\ JS.px_val (endY (measureSection el w))
     = offsetTop el + offsetHeight el - innerHeight w
  /\ JS.px_val (height (measureSection el w)) = offsetHeight el
  /\ JS.px_val (viewport (measureSection el w)) = innerHeight w.
Proof.
  pose proof (long_bound (offsetTop el)). pose proof (long_bound (offsetHeight el)).
  pose proof (long_bound (innerHeight w)).
  unfold measureSection. cbn [startY endY height viewport].
  rewrite (px_of_val (offsetTop el)), (px_of_val (offsetHeight el)),
    (px_of_val (innerHeight w)) by lia.
  rewrite px_of_val by lia. repeat split; reflexivity.
Qed.

Lemma measureSection_nonDegenerate (el : Element) (w : Window) :
  nonDegenerate (measureSection el w) <-> innerHeight w < offsetHeight el.
Proof.
  destruct (measureSection_values el w) as (S & E & _).
  unfold nonDegenerate. rewrite <- Zlt_Qlt, S, E. lia.
Qed.

(** [computeMetrics] leaves everything alone while the section is not
    mounted.  On a mounted section it replaces the cache by the measures of
    the page, touches neither [active] nor [ticking] and calls nothing; the
    sticky range it stores is [offsetHeight - innerHeight] long, so it is
    non-degenerate exactly when the section is taller than the viewport. *)
Theorem computeMetrics_measures (d : Dom) (s : Showcase) :
  (sectionRef d = None -> computeMetrics d s = (tt, s, []))
  /\ (forall el : Element,
         sectionRef d = Some el ->
         let s' := state (computeMetrics d s) in
         metricsRef s' = measureSection el (window d)
         /\ active s' = active s /\ ticking s' = ticking s
         /\ calls (computeMetrics d s) = []
         /\ (endY (metricsRef s') - startY (metricsRef s')
             == inject_Z (offsetHeight el - innerHeight (window d)))%Q
         /\ (nonDegenerate (metricsRef s')
             <-> innerHeight (window d) < offsetHeight el)).
Proof.
  split; [apply computeMetrics_unmounted|].
  intros el H s'. subst s'. rewrite (computeMetrics_mounted d s el H).
  cbn [state calls fst snd metricsRef active ticking].
  repeat (split; [reflexivity|]). split.
  - destruct (measureSection_values el (window d)) as (S & E & _).
    rewrite S, E. unfold Z.sub. rewrite !inject_Z_plus, !inject_Z_opp. ring.
  - apply measureSection_nonDegenerate.
Qed.

Lemma onResize_mounted (d : Dom) (s : Showcase) (el : Element) :
  sectionRef d = Some el -> ticking s = false ->
  onResize d s
  = (true, mkShowcase (active s) (measureSection el (window d)) true,
     [RequestAnimationFrame]).
Proof.
  intros H T. unfold onResize, bind. rewrite (computeMetrics_mounted d s el H).
  rewrite (onScroll_requests d _ el H) by exact T. reflexivity.
Qed.

(** A resize event on a mounted section with no frame pending works with
    the measures of the page as it is now, whatever the cache held before:
    the cache becomes those measures, and the index of the current offset in
    the new sticky range is stored unless it is the [active] the handler's
    closure captured.  With the closure up to date, [active] becomes that
    index, or stays when the offset is outside of the range. *)
Theorem resize_uses_fresh_metrics (seen : Z) (d : Dom) (s : Showcase) (el : Element) :
  sectionRef d = Some el -> ticking s = false ->
  let m := measureSection el (window d) in
  let y := scrollY (window d) in
  let s' := state (resizeEvent features seen d s) in
  metricsRef s' = m
  /\ active s' = (if inStickyRange m y
                  then if nextIndex features m y =? seen
                       then active s else nextIndex features m y
                  else active s)
  /\ (seen = active s ->
      active s' = if inStickyRange m y then nextIndex features m y else active s)
  /\ ticking s' = false.
Proof.
  intros H T m y s'. subst s' y. unfold resizeEvent. rewrite bind_state.
  rewrite (onResize_mounted d s el H T). cbn [result state fst snd].
  rewrite onScrollFrame_state. cbn [active metricsRef ticking]. fold m.
  split; [reflexivity|]. split; [|split; [|reflexivity]].
  - destruct (inStickyRange m (scrollY (window d))); [|reflexivity].
    destruct (_ =? _); reflexivity.
  - intros U. destruct (inStickyRange m (scrollY (window d))); [|reflexivity].
    destruct (Z.eqb_spec (nextIndex features m (scrollY (window d))) seen);
      cbn [negb]; congruence.
Qed.

Lemma onScroll_cases (d : Dom) (s : Showcase) :
  onScroll d s
  = match sectionRef d with
    | None => (false, s, [])
    | Some _ =>
        if ticking s then (false, s, [])
        else (true, mkShowcase (active s) (metricsRef s) true,
              [RequestAnimationFrame])
    end.
Proof.
  destruct (sectionRef d) as [el|] eqn:H.
  - destruct (ticking s) eqn:T.
    + apply onScroll_ticking. exact T.
    + apply (onScroll_requests d s el H T).
  - apply onScroll_unmounted. exact H.
Qed.

(** However many scroll events arrive before the next animation frame, at
    most one frame callback is requested: none while one is already pending
    or while no event finds the section mounted, exactly one otherwise.  The
    burst changes neither [active] nor the metrics. *)
Theorem scroll_burst_requests_one_frame (ds : list Dom) (s : Showcase) :
  frameRequests (calls (scrollBurst ds s))
  = (if ticking s then 0 else if existsb isMounted ds then 1 else 0)%nat
  /\ active (state (scrollBurst ds s)) = active s
  /\ metricsRef (state (scrollBurst ds s)) = metricsRef s
  /\ ticking (state (scrollBurst ds s)) = (ticking s || existsb isMounted ds)%bool.
Proof.
  revert s. induction ds as [|d ds IH]; intros s.
  - cbn. destruct (ticking s); repeat split; reflexivity.
  - cbn [scrollBurst existsb]. rewrite bind_calls, bind_state.
    destruct (IH (state (onScroll d s))) as (F & A & Mt & T). clear IH.
    unfold frameRequests in *. rewrite filter_app, length_app, F, A, Mt, T.
    clear F A Mt T. generalize (existsb isMounted ds). intros b.
    rewrite onScroll_cases. unfold isMounted.
    destruct (sectionRef d); [destruct (ticking s) eqn:Ts|];
      cbn [state calls fst snd ticking active metricsRef filter List.length
           orb Nat.add app];
      rewrite ?Ts; repeat split; try reflexivity;
      destruct (ticking s); destruct b; reflexivity.
Qed.

Lemma onScrollFrame_calls (seen : Z) (d : Dom) (s : Showcase) :
  calls (onScrollFrame features seen d s)
  = if inStickyRange (metricsRef s) (scrollY (window d))
    then if negb (nextIndex features (metricsRef s) (scrollY (window d)) =? seen)
         then [SetActive (nextIndex features (metricsRef s) (scrollY (window d)))]
         else []
    else [].
Proof.
  unfold onScrollFrame, nextIndex. rewrite currentY_scrollY. run_handler.
  destruct (inStickyRange _ _); [|reflexivity].
  destruct (negb _); reflexivity.
Qed.

Lemma onScrollFrame_never_scrolls (seen : Z) (d : Dom) (s : Showcase) :
  scrollRequests (calls (onScrollFrame features seen d s)) = [].
Proof.
  rewrite onScrollFrame_calls.
  destruct (inStickyRange _ _); [|reflexivity]. destruct (negb _); reflexivity.
Qed.

Lemma scrollRequests_app (a b : list Call) :
  scrollRequests (a ++ b) = scrollRequests a ++ scrollRequests b.
Proof. unfold scrollRequests. apply flat_map_app. Qed.

Lemma scrollEvent_calls (seen : Z) (d : Dom) (s : Showcase) :
  calls (scrollEvent features seen d s)
  = match sectionRef d with
    | None => []
    | Some _ =>
        if ticking s then []
        else RequestAnimationFrame
             :: calls (onScrollFrame features seen d
                         (mkShowcase (active s) (metricsRef s) true))
    end.
Proof.
  unfold scrollEvent. rewrite bind_calls, onScroll_cases.
  destruct (sectionRef d); [destruct (ticking s)|]; reflexivity.
Qed.

(** A resize event is a scroll event on the re-measured component. *)
Lemma resizeEvent_scrollEvent (seen : Z) (d : Dom) (s : Showcase) :
  resizeEvent features seen d s
  = scrollEvent features seen d (state (computeMetrics d s)).
Proof.
  assert (E : computeMetrics d s = (tt, state (computeMetrics d s), [])).
  { unfold computeMetrics. destruct (sectionRef d); reflexivity. }
  unfold resizeEvent, scrollEvent, onResize, bind. rewrite E at 1.
  destruct (onScroll d (state (computeMetrics d s))) as [[r s2] c2].
  cbn [app]. destruct (if r then _ else _) as [[u s3] c3]. reflexivity.
Qed.

(** Handling a scroll or a resize event never asks the browser to scroll:
    the only calls are one [requestAnimationFrame] and at most one
    [setActive]. *)
Theorem scroll_handling_never_scrolls (seen : Z) (d : Dom) (s : Showcase) :
  scrollRequests (calls (scrollEvent features seen d s)) = []
  /\ scrollRequests (calls (resizeEvent features seen d s)) = []
  /\ (List.length (calls (scrollEvent features seen d s)) <= 2)%nat
  /\ (List.length (calls (resizeEvent features seen d s)) <= 2)%nat.
Proof.
  assert (S : forall s0, scrollRequests (calls (scrollEvent features seen d s0)) = []
                         /\ (List.length (calls (scrollEvent features seen d s0)) <= 2)%nat).
  { intros s0. rewrite scrollEvent_calls.
    destruct (sectionRef d); [destruct (ticking s0)|]; cbn [List.length];
      try (split; [reflexivity | lia]).
    split.
    - cbn [scrollRequests flat_map app]. apply onScrollFrame_never_scrolls.
    - rewrite onScrollFrame_calls.
      destruct (inStickyRange _ _); [destruct (negb _)|]; cbn [List.length]; lia. }
  rewrite resizeEvent_scrollEvent.
  destruct (S s) as [S1 S2]. destruct (S (state (computeMetrics d s))) as [R1 R2].
  auto.
Qed.

End HandlerFacts.

(** ** Further properties of the navigation *)

Section NavigationFacts.

Variable features : JS.array Feature.

(** Whatever index is asked for, [scrollToIndex] touches neither the metrics
    nor [ticking], requests no animation frame, and asks for at most one
    scroll: none exactly when the range is degenerate, and otherwise a smooth
    one whose target lies inside the sticky range. *)
Theorem navigation_scrolls_inside_range (n : Z) (s : Showcase) :
  let r := scrollToIndex features n s in
  let m := metricsRef s in
  metricsRef (state r) = m /\ ticking (state r) = ticking s
  /\ frameRequests (calls r) = 0%nat
  /\ (scrollRequests (calls r) = [] <-> (endY m <= startY m)%Q)
  /\ (forall (top : Q) (b : Behavior),
         In (ScrollTo top b) (calls r) ->
         b = Smooth /\ (startY m <= top)%Q /\ (top <= endY m)%Q
         /\ scrollRequests (calls r) = [top]).
Proof.
  intros r m. subst r. rewrite scrollToIndex_state, scrollToIndex_calls. fold m.
  cbn [metricsRef ticking]. split; [reflexivity|]. split; [reflexivity|].
  destruct (Qle_bool (endY m) (startY m)) eqn:B.
  - apply Qle_bool_iff in B. split; [reflexivity|]. split.
    + split; intros _; [exact B | reflexivity].
    + intros top b [H|[]]. discriminate H.
  - assert (D : nonDegenerate m).
    { unfold nonDegenerate. apply Qnot_le_lt. intros H.
      apply Qle_bool_iff in H. congruence. }
    split; [reflexivity|]. split.
    + split; [discriminate|]. intros H. unfold nonDegenerate in D. lra.
    + intros top b [H|[H|[]]]; [discriminate H|].
      injection H as <- <-. destruct (target_in_range features m n D) as [L U].
      repeat split; assumption.
Qed.

(** From a valid index whose closure is up to date, [onNext] moves one step
    forward unless at the last feature, [onPrev] one step back unless at the
    first, and [onPrev] after [onNext] restores the component's cells. *)
Theorem next_prev_step (s : Showcase) :
  validIndex features (active s) ->
  (active s < total features - 1 ->
   active (state (onNext features (active s) s)) = active s + 1)
  /\ (0 < active s ->
      active (state (onPrev features (active s) s)) = active s - 1)
  /\ (active s < total features - 1 ->
      let s1 := state (onNext features (active s) s) in
      state (onPrev features (active s1) s1) = s)
  /\ (0 < active s ->
      let s1 := state (onPrev features (active s) s) in
      state (onNext features (active s1) s1) = s).
Proof.
  unfold validIndex, onNext, onPrev. intros V.
  repeat split; intros H; cbv zeta; rewrite !scrollToIndex_state;
    cbn [active metricsRef ticking]; unfold clamp.
  - lia.
  - lia.
  - replace (Z.max 0 (Z.min (Z.max 0 (Z.min (active s + 1) (total features - 1)) - 1)
                        (total features - 1))) with (active s) by lia.
    destruct s; reflexivity.
  - replace (Z.max 0 (Z.min (Z.max 0 (Z.min (active s - 1) (total features - 1)) + 1)
                        (total features - 1))) with (active s) by lia.
    destruct s; reflexivity.
Qed.

(** Inside the sticky range the index follows the page: of two scroll
    events handled from the same state with the closure up to date, the one
    further down the page never selects an earlier feature. *)
Theorem scrolling_down_never_goes_back
    (d d' : Dom) (s : Showcase) (el el' : Element) :
  1 <= total features ->
  sectionRef d = Some el -> sectionRef d' = Some el' -> ticking s = false ->
  let m := metricsRef s in
  (startY m <= scrollY (window d))%Q ->
  (scrollY (window d) <= scrollY (window d'))%Q ->
  (scrollY (window d') <= endY m)%Q ->
  (startY m < endY m)%Q ->
  active (state (scrollEvent features (active s) d s))
  <= active (state (scrollEvent features (active s) d' s)).
Proof.
  intros T H H' Tk m L Mid U D.
  rewrite (scrollEvent_in_range features d s el H Tk),
          (scrollEvent_in_range features d' s el' H' Tk).
  - apply nextIndex_mono; assumption.
  - apply inStickyRange_true. fold m. repeat split; [lra | lra | exact D].
  - apply inStickyRange_true. fold m. repeat split; [lra | lra | exact D].
Qed.

(** With the section laid out [total] viewports tall (two features or more),
    the cached range gives every feature one viewport of scrolling: the step
    of index [i] is at [offsetTop + i * innerHeight], and a scroll event
    handled with the closure up to date, at an offset of the sticky range
    less than [1/2 - 2^-19] of a viewport away from that step, selects
    [i]. *)
Theorem one_viewport_per_feature
    (d : Dom) (s : Showcase) (el : Element) (i : Z) :
  sectionRef d = Some el -> ticking s = false ->
  metricsRef s = measureSection el (window d) ->
  2 <= total features -> 0 < innerHeight (window d) ->
  offsetHeight el = total features * innerHeight (window d) :> Z ->
  validIndex features i ->
  let vh := inject_Z (innerHeight (window d)) in
  let step := inject_Z (offsetTop el + i * innerHeight (window d)) in
  let y := scrollY (window d) in
  (stepOffset features (metricsRef s) i == step)%Q
  /\ ((startY (metricsRef s) <= y)%Q -> (y <= endY (metricsRef s))%Q ->
      (- (((1 # 2) - slack) * vh) <= y - step)%Q ->
      (y - step < ((1 # 2) - slack) * vh)%Q ->
      active (state (scrollEvent features (active s) d s)) = i).
Proof.
  intros H Tk Hm T Vh Lay V vh step y.
  destruct (measureSection_values el (window d)) as (S & E & _).
  rewrite <- Hm in S, E.
  set (N := total features - 1).
  assert (PN : (0 < inject_Z N)%Q).
  { change 0%Q with (inject_Z 0). rewrite <- Zlt_Qlt. unfold N. lia. }
  assert (Pv : (0 < vh)%Q).
  { unfold vh. change 0%Q with (inject_Z 0). rewrite <- Zlt_Qlt. exact Vh. }
  assert (LenZ : endY (metricsRef s) - startY (metricsRef s)
                 = N * innerHeight (window d)).
  { rewrite S, E, Lay. unfold N. ring. }
  assert (Len : (inject_Z (endY (metricsRef s)) - inject_Z (startY (metricsRef s))
                 == inject_Z N * vh)%Q).
  { unfold vh. rewrite <- inject_Z_mult, <- LenZ. unfold Z.sub.
    rewrite inject_Z_plus, inject_Z_opp. reflexivity. }
  assert (D : nonDegenerate (metricsRef s)).
  { unfold nonDegenerate. nra. }
  assert (Sq : (inject_Z (startY (metricsRef s)) == inject_Z (offsetTop el))%Q)
    by (rewrite S; reflexivity).
  assert (St : (stepOffset features (metricsRef s) i == step)%Q).
  { unfold stepOffset. destruct (Z.eqb_spec (total features) 1); [lia|]. fold N.
    setoid_replace (inject_Z i / inject_Z N
                    * (inject_Z (endY (metricsRef s))
                       - inject_Z (startY (metricsRef s))))%Q
      with (inject_Z i * vh)%Q
      by (rewrite Len; field; intros Z0; lra).
    unfold step, vh. rewrite inject_Z_plus, inject_Z_mult, Sq. reflexivity. }
  split; [exact St|]. intros L U Lo Hi.
  unfold nonDegenerate in D.
  rewrite (scrollEvent_in_range features d s el H Tk)
    by (apply inStickyRange_true; auto).
  assert (X : ((y - inject_Z (startY (metricsRef s)))
               / inject_Z (endY (metricsRef s) - startY (metricsRef s))
               * inject_Z (total features - 1)
               == inject_Z i + (y - step) / vh)%Q).
  { fold N. rewrite LenZ, inject_Z_mult. fold vh.
    unfold step. rewrite inject_Z_plus, inject_Z_mult, Sq. fold vh.
    field. split; intros Z0; lra. }
  assert (R0 : (- ((1 # 2) - slack) <= (y - step) / vh)%Q).
  { apply Qle_shift_div_l; [exact Pv|]. lra. }
  assert (R1 : ((y - step) / vh < (1 # 2) - slack)%Q).
  { apply Qlt_shift_div_r; [exact Pv|]. lra. }
  apply (nextIndex_near features (metricsRef s) y i); try assumption;
    [lia | rewrite X; lra | rewrite X; lra].
Qed.

End NavigationFacts.

(** ** Rendering, further *)

Section RenderFacts.

Variable features : JS.array Feature.

Lemma renderEntries_length (fs : list Feature) (i act : Z) :
  List.length (renderEntries fs i act) = List.length fs.
Proof.
  revert i. induction fs as [|f fs IH]; intros i; cbn [renderEntries List.length];
    [reflexivity | rewrite IH; reflexivity].
Qed.

Lemma activeEntries_renderEntries (fs : list Feature) (i act : Z) :
  activeEntries (renderEntries fs i act)
  = if i <=? act
    then match nth_error fs (Z.to_nat (act - i)) with
         | Some f => [(id f, title f, true)]
         | None => []
         end
    else [].
Proof.
  revert i. induction fs as [|f fs IH]; intros i.
  - cbn [renderEntries activeEntries filter].
    destruct (i <=? act); [|reflexivity]. destruct (Z.to_nat (act - i)); reflexivity.
  - cbn [renderEntries]. unfold activeEntries in *. cbn [filter snd].
    rewrite IH. destruct (Z.eqb_spec i act) as [E|E].
    + subst act. rewrite Z.leb_refl, Z.sub_diag. cbn [Z.to_nat nth_error].
      destruct (Z.leb_spec (i + 1) i); [lia | reflexivity].
    + destruct (Z.leb_spec i act) as [L|L].
      * destruct (Z.leb_spec (i + 1) act); [|lia].
        replace (Z.to_nat (act - i)) with (S (Z.to_nat (act - (i + 1)))) by lia.
        reflexivity.
      * destruct (Z.leb_spec (i + 1) act); [lia | reflexivity].
Qed.

Lemma render_index (act : Z) :
  render features act <> None <-> JS.index features act <> None.
Proof.
  unfold render. destruct (JS.index features act); split; intros H; congruence.
Qed.

(** Rendering succeeds exactly at the valid indices.  What it renders then
    shows the feature at [active]: the label is [active + 1], heading and
    description are that feature's title and body, the list has one entry per
    feature, and exactly one entry is marked active, that feature's. *)
Theorem render_shows_current (act : Z) :
  (render features act <> None <-> validIndex features act)
  /\ (forall v : View,
         render features act = Some v ->
         exists current : Feature,
           JS.index features act = Some current
           /\ label v = act + 1
           /\ heading v = title current /\ description v = body current
           /\ List.length (entries v) = List.length features
           /\ activeEntries (entries v) = [(id current, title current, true)]).
Proof.
  split.
  - rewrite render_index. symmetry. apply validIndex_index.
  - intros v H. unfold render in H.
    destruct (JS.index features act) as [current|] eqn:I; [|discriminate].
    injection H as <-. exists current. cbn [label heading description entries].
    repeat (split; [reflexivity|]). split; [apply renderEntries_length|].
    rewrite activeEntries_renderEntries. unfold JS.index in I.
    destruct (Z.ltb_spec act 0); [discriminate|].
    destruct (Z.leb_spec 0 act); [|lia]. rewrite Z.sub_0_r, I. reflexivity.
Qed.

(** A component that rendered once never fails to render again: along every
    run from the mount, the render of the reached [active] succeeds. *)
Theorem render_never_throws (d : Dom) (es : list Event) :
  render features (active initial) <> None ->
  render features (active (comp (run features (mount d) es))) <> None.
Proof.
  intros R. apply first_render_nonempty in R.
  pose proof (total_pos features R) as T.
  apply render_index, validIndex_index, run_valid; [exact T|].
  unfold mount. rewrite effect_active. unfold validIndex. cbn [comp active initial].
  lia.
Qed.

End RenderFacts.

(** ** Further properties of the transition system *)

Section TransitionFacts.

Variable features : JS.array Feature.

Lemma perform_eq {A : Type} (w : World) (m : M A) :
  perform w m
  = (result (m (comp w)),
     mkWorld (dom w) (state (m (comp w))) (rendered w) (gen w) (frames w)
       (issued w ++ calls (m (comp w)))).
Proof.
  unfold perform, result, state, calls. destruct (m (comp w)) as [[a s] c].
  reflexivity.
Qed.

Lemma onResize_cases (d : Dom) (s : Showcase) :
  onResize d s = onScroll d (state (computeMetrics d s)).
Proof.
  assert (E : computeMetrics d s = (tt, state (computeMetrics d s), [])).
  { unfold computeMetrics. destruct (sectionRef d); reflexivity. }
  unfold onResize, bind. rewrite E at 1.
  destruct (onScroll d (state (computeMetrics d s))) as [[r s2] c2]. reflexivity.
Qed.

Lemma computeMetrics_ticking (d : Dom) (s : Showcase) :
  ticking (state (computeMetrics d s)) = ticking s.
Proof. unfold computeMetrics. destruct (sectionRef d); reflexivity. Qed.

(** How [ticking] and the request go together in [onScroll]. *)
Lemma onScroll_flow (d : Dom) (s : Showcase) :
  (result (onScroll d s) = true
   /\ ticking s = false /\ ticking (state (onScroll d s)) = true)
  \/ (result (onScroll d s) = false
      /\ ticking (state (onScroll d s)) = ticking s).
Proof.
  rewrite onScroll_cases.
  destruct (sectionRef d); [destruct (ticking s) eqn:T|];
    cbn [result state fst snd ticking]; auto.
Qed.

Lemma pendingOf_app (g : nat) (a b : list (nat * Z)) :
  pendingOf g (a ++ b) = (pendingOf g a + pendingOf g b)%nat.
Proof. unfold pendingOf. rewrite filter_app, length_app. reflexivity. Qed.

Lemma pendingOf_later (g : nat) (fs : list (nat * Z)) :
  Forall (fun f => (fst f <= g)%nat) fs -> pendingOf (S g) fs = 0%nat.
Proof.
  unfold pendingOf. induction 1 as [|f fs H _ IH]; [reflexivity|].
  cbn [filter]. destruct (Nat.eqb_spec (fst f) (S g)); [lia | exact IH].
Qed.

(** A handler that behaves like [onScroll] on [ticking] keeps the queue
    throttled when its request is queued. *)
Lemma throttled_enqueue (w : World) (m : M bool) :
  throttled w ->
  ((result (m (comp w)) = true
    /\ ticking (comp w) = false /\ ticking (state (m (comp w))) = true)
   \/ (result (m (comp w)) = false
       /\ ticking (state (m (comp w))) = ticking (comp w))) ->
  throttled (enqueue (perform w m)).
Proof.
  intros [F P] H. rewrite perform_eq. unfold enqueue, throttled.
  destruct H as [(R & T0 & T1)|(R & T1)]; rewrite R; cbn [frames gen comp];
    rewrite T1.
  - split.
    + apply Forall_app. split; [exact F|]. constructor; [cbn; lia | constructor].
    + rewrite pendingOf_app, P, T0. unfold pendingOf. cbn [filter fst].
      rewrite Nat.eqb_refl. reflexivity.
  - split; assumption.
Qed.

Lemma throttled_effect (w : World) : throttled w -> throttled (effect w).
Proof.
  intros [F P]. unfold effect.
  apply throttled_enqueue.
  - split; cbn [frames gen comp ticking].
    + eapply Forall_impl; [|exact F]. cbn. intros f Hf. lia.
    + apply pendingOf_later. exact F.
  - cbn [comp dom]. fold (onResize (dom w)). rewrite onResize_cases.
    set (s0 := mkShowcase _ _ false).
    destruct (onScroll_flow (dom w) (state (computeMetrics (dom w) s0)))
      as [(R & T0 & T1)|(R & T1)];
      rewrite computeMetrics_ticking in *; auto.
Qed.

Lemma throttled_runFrame (w : World) :
  throttled w -> throttled (runFrame features w).
Proof.
  intros [F P]. unfold runFrame.
  destruct (frames w) as [|[g seen] rest] eqn:Fr; [split; rewrite ?Fr; assumption|].
  rewrite perform_eq. cbn [snd comp dom gen frames rendered issued].
  rewrite onScrollFrame_state.
  inversion F as [|f fs Hg Frest]; subst. cbn [fst] in Hg.
  unfold pendingOf in P. cbn [filter fst] in P.
  destruct (Nat.eqb_spec g (gen w)) as [E|E]; unfold throttled;
    cbn [frames gen comp ticking]; (split; [exact Frest|]).
  - cbn [List.length] in P. destruct (ticking (comp w)); unfold pendingOf; lia.
  - exact P.
Qed.

Lemma throttled_step (w : World) (e : Event) :
  throttled w -> throttled (step features w e).
Proof.
  intros T. destruct e; cbn [step].
  - apply throttled_enqueue; [exact T|]. cbn [withDom comp]. apply onScroll_flow.
  - apply throttled_enqueue; [exact T|]. cbn [withDom comp].
    rewrite onResize_cases.
    destruct (onScroll_flow
                (mkDom (option_map (fun _ => el) (sectionRef (dom w)))
                   (mkWindow (scrollY (window (dom w))) h))
                (state (computeMetrics
                          (mkDom (option_map (fun _ => el) (sectionRef (dom w)))
                             (mkWindow (scrollY (window (dom w))) h))
                          (comp w))))
      as [(R & T0 & T1)|(R & T1)];
      rewrite computeMetrics_ticking in *; auto.
  - apply throttled_runFrame. exact T.
  - destruct (_ =? _); [exact T | apply throttled_effect; exact T].
  - rewrite perform_eq. cbn [snd]. destruct T as [F P]. unfold throttled.
    cbn [frames gen comp]. rewrite scrollToIndex_state. cbn [ticking]. auto.
  - rewrite perform_eq. cbn [snd]. destruct T as [F P]. unfold throttled, onPrev.
    cbn [frames gen comp]. rewrite scrollToIndex_state. cbn [ticking]. auto.
  - rewrite perform_eq. cbn [snd]. destruct T as [F P]. unfold throttled, onNext.
    cbn [frames gen comp]. rewrite scrollToIndex_state. cbn [ticking]. auto.
Qed.

Lemma throttled_run (es : list Event) (w : World) :
  throttled w -> throttled (run features w es).
Proof.
  revert w. induction es as [|e es IH]; intros w T; cbn [run fold_left];
    [exact T | apply IH, throttled_step, T].
Qed.

Lemma throttled_mount (d : Dom) : throttled (mount d).
Proof.
  apply throttled_effect. split; [constructor | reflexivity].
Qed.

(** Along every run from the mount the scroll handler stays throttled: the
    running effect instance has at most one frame callback queued, exactly
    when its [ticking] flag is set. *)
Theorem frames_stay_throttled (d : Dom) (es : list Event) :
  let w := run features (mount d) es in
  (pendingOf (gen w) (frames w) <= 1)%nat
  /\ (ticking (comp w) = true <-> pendingOf (gen w) (frames w) = 1%nat)
  /\ Forall (fun f => (fst f <= gen w)%nat) (frames w).
Proof.
  destruct (throttled_run es (mount d) (throttled_mount d)) as [F P].
  cbv zeta. rewrite P.
  destruct (ticking (comp (run features (mount d) es)));
    repeat split; auto; discriminate.
Qed.

Lemma effect_mounted (w : World) (el : Element) :
  sectionRef (dom w) = Some el ->
  effect w
  = mkWorld (dom w)
      (mkShowcase (active (comp w)) (measureSection el (window (dom w))) true)
      (active (comp w)) (S (gen w))
      (frames w ++ [(S (gen w), active (comp w))])
      (issued w ++ [RequestAnimationFrame]).
Proof.
  intros H. unfold effect. cbv zeta. cbn [dom]. fold (onResize (dom w)).
  rewrite perform_eq. cbn [comp dom rendered gen frames issued].
  rewrite (onResize_mounted (dom w) _ el H) by reflexivity. reflexivity.
Qed.

Lemma effect_unmounted (w : World) :
  sectionRef (dom w) = None ->
  effect w
  = mkWorld (dom w) (mkShowcase (active (comp w)) (metricsRef (comp w)) false)
      (active (comp w)) (S (gen w)) (frames w) (issued w).
Proof.
  intros H. unfold effect. cbv zeta. cbn [dom]. fold (onResize (dom w)).
  rewrite perform_eq. cbn [comp dom rendered gen frames issued].
  rewrite onResize_cases, (computeMetrics_unmounted (dom w) _ H).
  cbn [state fst snd]. rewrite (onScroll_unmounted (dom w) _ H).
  cbn [result calls fst snd enqueue]. rewrite app_nil_r. reflexivity.
Qed.

Lemma step_ClickItem (w : World) (i : Z) :
  step features w (ClickItem i)
  = mkWorld (dom w)
      (mkShowcase (clamp i 0 (total features - 1)) (metricsRef (comp w))
         (ticking (comp w)))
      (rendered w) (gen w) (frames w)
      (issued w ++ calls (scrollToIndex features i (comp w))).
Proof.
  cbn [step]. rewrite perform_eq. cbn [snd]. rewrite scrollToIndex_state.
  reflexivity.
Qed.

Lemma step_Scroll_requests (w : World) (y : Q) (el : Element) :
  sectionRef (dom w) = Some el -> ticking (comp w) = false ->
  step features w (Scroll y)
  = mkWorld (mkDom (sectionRef (dom w)) (mkWindow y (innerHeight (window (dom w)))))
      (mkShowcase (active (comp w)) (metricsRef (comp w)) true)
      (rendered w) (gen w) (frames w ++ [(gen w, rendered w)])
      (issued w ++ [RequestAnimationFrame]).
Proof.
  intros H T. cbn [step]. rewrite perform_eq. cbn [withDom comp dom rendered gen frames issued].
  rewrite (onScroll_requests _ (comp w) el) by (cbn [sectionRef]; assumption).
  reflexivity.
Qed.

Lemma step_AnimationFrame_current (w : World) (seen : Z) (rest : list (nat * Z)) :
  frames w = (gen w, seen) :: rest ->
  step features w AnimationFrame
  = mkWorld (dom w) (state (onScrollFrame features seen (dom w) (comp w)))
      (rendered w) (gen w) rest
      (issued w ++ calls (onScrollFrame features seen (dom w) (comp w))).
Proof.
  intros F. cbn [step]. unfold runFrame. rewrite F, Nat.eqb_refl, perform_eq.
  reflexivity.
Qed.

Lemma step_Commit_changed (w : World) (el : Element) :
  sectionRef (dom w) = Some el -> active (comp w) <> rendered w ->
  step features w Commit
  = mkWorld (dom w)
      (mkShowcase (active (comp w)) (measureSection el (window (dom w))) true)
      (active (comp w)) (S (gen w))
      (frames w ++ [(S (gen w), active (comp w))])
      (issued w ++ [RequestAnimationFrame]).
Proof.
  intros H Ne. cbn [step].
  destruct (Z.eqb_spec (active (comp w)) (rendered w)); [contradiction|].
  apply effect_mounted. exact H.
Qed.

(** The index the frame callback leaves, given what its closure saw. *)
Lemma frame_index (seen : Z) (d : Dom) (s : Showcase) :
  active (state (onScrollFrame features seen d s))
  = if inStickyRange (metricsRef s) (scrollY (window d))
       && negb (nextIndex features (metricsRef s) (scrollY (window d)) =? seen)
    then nextIndex features (metricsRef s) (scrollY (window d))
    else active s.
Proof.
  rewrite onScrollFrame_state. cbn [active].
  destruct (inStickyRange _ _); [|reflexivity]. destruct (negb _); reflexivity.
Qed.

(** Mounting on a page whose section is not attached measures and requests
    nothing.  On an attached section it caches the measures and requests one
    frame; when that frame runs, [active] is the index of the offset the page
    is at (a page loaded mid-section shows that feature), or 0 outside the
    sticky range. *)
Theorem mount_initial_sync (d : Dom) :
  (sectionRef d = None -> mount d = mkWorld d initial 0 1 [] [])
  /\ (forall el : Element,
         sectionRef d = Some el ->
         let m := measureSection el (window d) in
         let w := step features (mount d) AnimationFrame in
         issued (mount d) = [RequestAnimationFrame]
         /\ frames (mount d) = [(1%nat, 0)]
         /\ metricsRef (comp w) = m
         /\ active (comp w)
            = (if inStickyRange m (scrollY (window d))
               then nextIndex features m (scrollY (window d))
               else 0)
         /\ ticking (comp w) = false /\ frames w = []).
Proof.
  split.
  - intros H. unfold mount. rewrite effect_unmounted by exact H. reflexivity.
  - intros el H m w. subst w. unfold mount.
    rewrite (effect_mounted (mkWorld d initial 0 0 [] []) el H).
    cbn [dom comp gen frames issued active initial app].
    split; [reflexivity|]. split; [reflexivity|].
    rewrite (step_AnimationFrame_current _ 0 []) by reflexivity.
    cbn [comp dom frames].
    rewrite frame_index, onScrollFrame_state. cbn [metricsRef active ticking].
    fold m. split; [reflexivity|]. split; [|split; reflexivity].
    destruct (inStickyRange m (scrollY (window d))); [|reflexivity].
    destruct (Z.eqb_spec (nextIndex features m (scrollY (window d))) 0) as [E|E];
      cbn [andb negb]; congruence.
Qed.

(** A click does not outlive the next commit and frame: from a committed
    state with no frame queued, clicking an item that changes [active],
    committing and running the frame of the re-run effect leaves the index of
    the offset the page is at (the smooth scroll has not moved it yet), or
    the clicked index outside the sticky range.  The range is the re-measured
    one. *)
Theorem click_then_frame_follows_page (w : World) (el : Element) (i : Z) :
  sectionRef (dom w) = Some el -> frames w = [] ->
  rendered w = active (comp w) ->
  clamp i 0 (total features - 1) <> active (comp w) ->
  let m := measureSection el (window (dom w)) in
  let y := scrollY (window (dom w)) in
  let w' := run features w [ClickItem i; Commit; AnimationFrame] in
  active (comp w')
  = (if inStickyRange m y then nextIndex features m y
     else clamp i 0 (total features - 1))
  /\ rendered w' = clamp i 0 (total features - 1)
  /\ metricsRef (comp w') = m.
Proof.
  intros H Fr Rn Ne m y w'. subst w'. set (c := clamp i 0 (total features - 1)) in *.
  cbn [run fold_left]. rewrite step_ClickItem. fold c.
  rewrite (step_Commit_changed _ el)
    by (cbn [dom comp active rendered]; first [exact H | rewrite Rn; exact Ne]).
  cbn [dom comp active gen frames issued]. rewrite Fr. cbn [app].
  rewrite (step_AnimationFrame_current _ c []) by reflexivity.
  cbn [comp dom rendered].
  rewrite frame_index, onScrollFrame_state. cbn [metricsRef active]. fold m y.
  split; [|split; reflexivity].
  destruct (inStickyRange m y); [|reflexivity].
  destruct (Z.eqb_spec (nextIndex features m y) c); cbn [andb negb]; congruence.
Qed.

(** A frame callback queued before a click compares with the index its
    closure captured: when it runs after the click and before the commit, it
    overrides the clicked index only if the page offset maps to another index
    than the captured one; otherwise the clicked index stays although the
    page is elsewhere. *)
Theorem queued_frame_after_click (w : World) (el : Element) (y : Q) (i : Z) :
  sectionRef (dom w) = Some el -> frames w = [] -> ticking (comp w) = false ->
  let m := metricsRef (comp w) in
  let w' := run features w [Scroll y; ClickItem i; AnimationFrame] in
  active (comp w')
  = (if inStickyRange m y && negb (nextIndex features m y =? rendered w)
     then nextIndex features m y
     else clamp i 0 (total features - 1))
  /\ ticking (comp w') = false /\ frames w' = [].
Proof.
  intros H Fr Tk m w'. subst w'. cbn [run fold_left].
  rewrite (step_Scroll_requests w y el H Tk), Fr. cbn [app].
  rewrite step_ClickItem. cbn [dom comp rendered gen frames metricsRef ticking].
  rewrite (step_AnimationFrame_current _ (rendered w) []) by reflexivity.
  cbn [comp dom rendered frames].
  rewrite frame_index, onScrollFrame_state.
  cbn [metricsRef active ticking window scrollY]. fold m.
  repeat split; reflexivity.
Qed.

End TransitionFacts.

(** ** The further properties at concrete pages *)

(** The default page: five viewports of section in one viewport of window
    give a non-degenerate range. *)
Lemma computeMetrics_measures_default :
  sectionRef (page5 0) = Some section5
  /\ nonDegenerate (metricsRef (state (computeMetrics (page5 0) initial))).
Proof.
  assert (H : sectionRef (page5 0) = Some section5) by reflexivity.
  split; [exact H|].
  destruct (proj2 (computeMetrics_measures (page5 0) initial) _ H)
    as (_ & _ & _ & _ & _ & ND).
  apply ND. reflexivity.
Defined.

(** A component with a stale (still zero) cache, the page at 1200: the
    resize event measures 0..3200 and selects index 2. *)
Lemma resize_uses_fresh_metrics_stale_cache :
  sectionRef (page5 1200) = Some section5
  /\ ticking initial = false
  /\ active (state (resizeEvent FEATURES (active initial) (page5 1200) initial)) = 2.
Proof.
  assert (H : sectionRef (page5 1200) = Some section5) by reflexivity.
  assert (T : ticking initial = false) by reflexivity.
  split; [exact H|]. split; [exact T|].
  destruct (resize_uses_fresh_metrics FEATURES (active initial) (page5 1200)
              initial _ H T) as (_ & _ & A & _).
  rewrite (A eq_refl). vm_compute. reflexivity.
Defined.

(** The click on item 3 of the default page asks for one scroll, to 2400. *)
Lemma navigation_scrolls_inside_range_item_3 :
  In (ScrollTo 2400 Smooth) (calls (scrollToIndex FEATURES 3 measured5))
  /\ (startY (metricsRef measured5) <= 2400)%Q
  /\ (2400 <= endY (metricsRef measured5))%Q.
Proof.
  assert (I : In (ScrollTo 2400 Smooth) (calls (scrollToIndex FEATURES 3 measured5)))
    by (right; left; vm_compute; reflexivity).
  split; [exact I|].
  destruct (navigation_scrolls_inside_range FEATURES 3 measured5)
    as (_ & _ & _ & _ & R).
  destruct (R _ _ I) as (_ & L & U & _). split; assumption.
Defined.

(** From the third feature of the default list: next, then previous. *)
Lemma next_prev_step_from_2 :
  validIndex FEATURES (active (mkShowcase 2 (metricsRef measured5) false))
  /\ 2 < total FEATURES - 1
  /\ active (state (onNext FEATURES 2 (mkShowcase 2 (metricsRef measured5) false)))
     = 2 + 1.
Proof.
  assert (V : validIndex FEATURES (active (mkShowcase 2 (metricsRef measured5) false)))
    by (unfold validIndex; vm_compute; split; discriminate).
  assert (L : 2 < total FEATURES - 1) by reflexivity.
  split; [exact V|]. split; [exact L|].
  exact (proj1 (next_prev_step FEATURES _ V) L).
Defined.

(** The default page at 1000 and at 1700. *)
Lemma scrolling_down_never_goes_back_default :
  1 <= total FEATURES
  /\ (scrollY (window (page5 1000)) <= scrollY (window (page5 1700)))%Q
  /\ active (state (scrollEvent FEATURES (active measured5) (page5 1000) measured5))
     <= active (state (scrollEvent FEATURES (active measured5) (page5 1700) measured5)).
Proof.
  assert (T : 1 <= total FEATURES) by (vm_compute; discriminate).
  assert (M : (scrollY (window (page5 1000)) <= scrollY (window (page5 1700)))%Q)
    by decide_Q.
  split; [exact T|]. split; [exact M|].
  apply (scrolling_down_never_goes_back FEATURES (page5 1000) (page5 1700) measured5
           section5 section5 T);
    first [reflexivity | decide_Q].
Defined.

(** The default page at 2700, three eighths of a viewport from the step of
    item 3 at 2400. *)
Lemma one_viewport_per_feature_default :
  offsetHeight section5 = total FEATURES * innerHeight (window (page5 2700)) :> Z
  /\ validIndex FEATURES 3
  /\ (stepOffset FEATURES (metricsRef measured5) 3 == inject_Z (0 + 3 * 800))%Q
  /\ active (state (scrollEvent FEATURES (active measured5) (page5 2700) measured5)) = 3.
Proof.
  assert (Lay : offsetHeight section5
                = total FEATURES * innerHeight (window (page5 2700)) :> Z)
    by reflexivity.
  assert (V : validIndex FEATURES 3)
    by (unfold validIndex; vm_compute; split; discriminate).
  split; [exact Lay|]. split; [exact V|].
  assert (T2 : 2 <= total FEATURES) by (vm_compute; discriminate).
  assert (Vh : 0 < innerHeight (window (page5 2700))) by reflexivity.
  destruct (one_viewport_per_feature FEATURES (page5 2700) measured5
              section5 3 eq_refl eq_refl eq_refl T2 Vh Lay V) as [St Sl].
  split; [exact St|]. apply Sl; decide_Q.
Defined.

(** The default list rendered at index 2. *)
Lemma render_shows_current_default :
  exists v : View,
    render FEATURES 2 = Some v
    /\ label v = 3
    /\ activeEntries (entries v) = [(3, "AI Summaries"%string, true)]
    /\ List.length (entries v) = 5%nat.
Proof.
  eexists. split; [reflexivity|].
  destruct (proj2 (render_shows_current FEATURES 2) _ eq_refl)
    as (current & I & L & _ & _ & Len & A).
  injection I as <-. split; [exact L|]. split; [exact A | exact Len].
Defined.

(** The default page after a click out of range, a commit and a frame. *)
Lemma render_never_throws_default :
  render FEATURES (active initial) <> None
  /\ render FEATURES
       (active (comp (run FEATURES (mount (page5 0))
                        [ClickItem 9; Commit; AnimationFrame]))) <> None.
Proof.
  assert (R : render FEATURES (active initial) <> None) by discriminate.
  split; [exact R|]. apply render_never_throws. exact R.
Defined.

(** The default page loaded at 2400: the first frame selects item 3. *)
Lemma mount_initial_sync_mid_section :
  sectionRef (page5 2400) = Some section5
  /\ active (comp (step FEATURES (mount (page5 2400)) AnimationFrame)) = 3.
Proof.
  assert (H : sectionRef (page5 2400) = Some section5) by reflexivity.
  split; [exact H|].
  destruct (proj2 (mount_initial_sync FEATURES (page5 2400)) _ H)
    as (_ & _ & _ & A & _).
  rewrite A. vm_compute. reflexivity.
Defined.

(** Clicking item 3 at the top of the page: after the commit and the frame
    the index is 0 again. *)
Lemma click_then_frame_follows_page_default :
  sectionRef (dom settled5) = Some section5
  /\ frames settled5 = []
  /\ rendered settled5 = active (comp settled5)
  /\ clamp 3 0 (total FEATURES - 1) <> active (comp settled5)
  /\ active (comp (run FEATURES settled5 [ClickItem 3; Commit; AnimationFrame])) = 0.
Proof.
  assert (H : sectionRef (dom settled5) = Some section5) by reflexivity.
  assert (F : frames settled5 = []) by reflexivity.
  assert (R : rendered settled5 = active (comp settled5)) by reflexivity.
  assert (N : clamp 3 0 (total FEATURES - 1) <> active (comp settled5))
    by (vm_compute; discriminate).
  repeat (split; [assumption|]).
  destruct (click_then_frame_follows_page FEATURES settled5 _ 3 H F R N) as (A & _).
  rewrite A. vm_compute. reflexivity.
Defined.

(** A scroll event at 100 (still index 0), then a click on item 3, then the
    queued frame: the clicked index stays. *)
Lemma queued_frame_after_click_default :
  sectionRef (dom settled5) = Some section5
  /\ frames settled5 = []
  /\ ticking (comp settled5) = false
  /\ active (comp (run FEATURES settled5 [Scroll 100; ClickItem 3; AnimationFrame])) = 3.
Proof.
  assert (H : sectionRef (dom settled5) = Some section5) by reflexivity.
  assert (F : frames settled5 = []) by reflexivity.
  assert (T : ticking (comp settled5) = false) by reflexivity.
  repeat (split; [assumption|]).
  destruct (queued_frame_after_click FEATURES settled5 _ 100 3 H F T) as (A & _).
  rewrite A. vm_compute. reflexivity.
Defined.
